(** * Multi-user correlation indicators: co-location and network structure

    A shallow embedding of [custom_indicators/colocation.py] and
    [custom_indicators/network.py], and the properties of the two modules.

    Conventions of the embedding:
    - a [datetime] is a number of seconds ([Z]) on an absolute time line
      whose origin falls on a midnight; [(a - b).total_seconds()] is [a - b];
      the time line is unbounded (the range of Python's [datetime], years 1
      to 9999, and the [OverflowError] beyond it are not modelled);
    - a string-or-[None] attribute is an [option string];
    - a Python [dict] that is returned to the caller keeps its insertion
      order and is an association list ([odict]); a [dict] that only serves
      as an index is a [gmap]; a Python [set] is a [gset] and [list(s)] is
      [elements s];
    - [list.sort] and [sorted] are stable, and so is [sort_by];
    - a function that can raise returns a [result]. *)

From stdpp Require Import gmap strings list fin_maps sorting.
From Stdlib Require Import ZArith Lia.

Local Open Scope Z_scope.

(** ** The record model (bandicoot's [User], [Record], [Position]) *)

Inductive Direction := DirIn | DirOut.
Inductive Interaction := Call | Text.

(** Latitude and longitude; the indicators only carry them around. *)
Definition Coord : Type := Z * Z.

Record Position := mkPosition { antenna : option string }.

Record BRecord := mkRecord {
  datetime : Z;
  position : Position;
  correspondent_id : option string;
  direction : Direction;
  interaction : Interaction;
  call_duration : option Z
}.

Record User := mkUser {
  records : list BRecord;
  antennas : option (gmap string Coord)
}.

(** ** Python helpers *)

(** Truth value of a string: the empty string is falsy. *)
Definition str_truthy (s : string) : bool :=
  match s with EmptyString => false | String _ _ => true end.

(** Truth value of a dict-or-[None]: [None] and [{}] are falsy. *)
Definition dict_truthy {V} (d : option (gmap string V)) : bool :=
  match d with
  | Some m => negb (bool_decide (m = ∅))
  | None => false
  end.

(** [if r.position.antenna:] keeps the records whose tag is neither [None]
    nor empty; the tag comes with the record. *)
Definition located_tag (r : BRecord) : option string :=
  match antenna (position r) with
  | Some a => if str_truthy a then Some a else None
  | None => None
  end.

Definition located (rs : list BRecord) : list (string * BRecord) :=
  omap (λ r, (λ a, (a, r)) <$> located_tag r) rs.

(** Stable sort on an integer key, ascending. *)
Fixpoint insert_by {A} (key : A → Z) (x : A) (l : list A) : list A :=
  match l with
  | [] => [x]
  | y :: l' => if key x <=? key y then x :: y :: l' else y :: insert_by key x l'
  end.

Definition sort_by {A} (key : A → Z) (l : list A) : list A :=
  foldr (insert_by key) [] l.

(** [sorted(..., reverse=True)]: descending, equal keys keep their order. *)
Definition sort_by_desc {A} (key : A → Z) (l : list A) : list A :=
  sort_by (λ x, - key x) l.

(** [min] and [max] of a list of instants (never called on an empty list). *)
Definition py_min (l : list Z) : Z :=
  match l with [] => 0 | x :: l' => fold_left Z.min l' x end.
Definition py_max (l : list Z) : Z :=
  match l with [] => 0 | x :: l' => fold_left Z.max l' x end.

(** Insertion-ordered dictionaries. *)
Definition odict (K V : Type) : Type := list (K * V).

Fixpoint dict_get {K V} `{EqDecision K} (k : K) (d : odict K V) : option V :=
  match d with
  | [] => None
  | (k', v) :: d' => if decide (k = k') then Some v else dict_get k d'
  end.

Fixpoint dict_set {K V} `{EqDecision K} (k : K) (v : V) (d : odict K V)
  : odict K V :=
  match d with
  | [] => [(k, v)]
  | (k', v') :: d' =>
      if decide (k = k') then (k, v) :: d' else (k', v') :: dict_set k v d'
  end.

(** [d[k] = f(d[k])] on a [defaultdict] whose default value is [dflt]. *)
Definition dict_update {K V} `{EqDecision K} (dflt : V) (f : V → V) (k : K)
  (d : odict K V) : odict K V :=
  dict_set k (f (default dflt (dict_get k d))) d.

(** Exceptions. *)
Inductive PyExn := IndexError | TypeError.

Inductive result (A : Type) : Type :=
| Ok (a : A)
| Raise (e : PyExn).
Arguments Ok {A} a.
Arguments Raise {A} e.

#[global] Instance result_ret : MRet result := λ A a, Ok a.
#[global] Instance result_bind : MBind result := λ A B f m,
  match m with Ok a => f a | Raise e => Raise e end.

(** ** colocation.py *)

Record Overlap := mkOverlap {
  antenna_id : string;
  user_a_time : Z;
  user_b_time : Z;
  delta_seconds : Z;
  coordinates : option Coord
}.

(** [user_a.antennas or user_b.antennas or {}] *)
Definition select_antennas (user_a user_b : User) : gmap string Coord :=
  if dict_truthy (antennas user_a) then default ∅ (antennas user_a)
  else if dict_truthy (antennas user_b) then default ∅ (antennas user_b)
  else ∅.

(** The [defaultdict(list)] of user B's located records, by tag. *)
Definition index_by_antenna (rs : list BRecord) : gmap string (list BRecord) :=
  fold_left
    (λ idx r,
       match located_tag r with
       | Some a => <[a := default [] (idx !! a) ++ [r]]> idx
       | None => idx
       end)
    rs ∅.

Definition overlaps_of_bucket (window_seconds : Z) (table : gmap string Coord)
  (ant : string) (rec_a : BRecord) (bucket : list BRecord) : list Overlap :=
  bucket ≫= λ rec_b,
    let delta := Z.abs (datetime rec_a - datetime rec_b) in
    if delta <=? window_seconds
    then [ {| antenna_id := ant;
              user_a_time := datetime rec_a;
              user_b_time := datetime rec_b;
              delta_seconds := delta;
              coordinates := table !! ant |} ]
    else [].

Definition antenna_overlap (user_a user_b : User) (window_minutes : Z)
  : list Overlap :=
  let window_seconds := window_minutes * 60 in
  let table := select_antennas user_a user_b in
  let b_by_antenna := index_by_antenna (records user_b) in
  let overlaps :=
    records user_a ≫= λ rec_a,
      match antenna (position rec_a) with
      | None => []
      | Some ant =>
          match b_by_antenna !! ant with
          | None => []
          | Some bucket =>
              overlaps_of_bucket window_seconds table ant rec_a bucket
          end
      end in
  sort_by user_a_time overlaps.

(** *** travel_pattern_match *)

Record Transition := mkTransition {
  t_from : string;
  t_to : string;
  t_time : Z
}.

Record TransitionMatch := mkTransitionMatch {
  from_antenna : string;
  to_antenna : string;
  tm_user_a_time : Z;
  tm_user_b_time : Z;
  tm_delta_seconds : Z
}.

Fixpoint transitions_of (sorted_records : list (string * BRecord))
  : list Transition :=
  match sorted_records with
  | prev :: ((curr :: _) as rest) =>
      (if decide (prev.1 ≠ curr.1)
       then [ {| t_from := prev.1; t_to := curr.1;
                 t_time := datetime curr.2 |} ]
       else [])
      ++ transitions_of rest
  | _ => []
  end.

Definition get_transitions (user : User) : list Transition :=
  transitions_of (sort_by (λ p, datetime p.2) (located (records user))).

Definition travel_pattern_match (user_a user_b : User) (window_minutes : Z)
  (min_sequence_length : Z) : list TransitionMatch :=
  let window_seconds := window_minutes * 60 in
  let trans_a := get_transitions user_a in
  let trans_b := get_transitions user_b in
  match trans_a, trans_b with
  | [], _ | _, [] => []
  | _, _ =>
      trans_a ≫= λ ta, trans_b ≫= λ tb,
        if bool_decide (t_from ta = t_from tb ∧ t_to ta = t_to tb)
        then
          let delta := Z.abs (t_time ta - t_time tb) in
          if delta <=? window_seconds
          then [ {| from_antenna := t_from ta; to_antenna := t_to ta;
                    tm_user_a_time := t_time ta; tm_user_b_time := t_time tb;
                    tm_delta_seconds := delta |} ]
          else []
        else []
  end.

(** *** multi_user_colocation *)

Record Hit := mkHit {
  h_user_index : nat;
  h_datetime : Z;
  h_antenna : string
}.

Record Cluster := mkCluster {
  c_antenna : string;
  user_indices : list nat;
  participant_count : nat;
  earliest_time : Z;
  latest_time : Z;
  time_span_seconds : Z
}.

Definition all_hits (users : list User) : list Hit :=
  mjoin (imap (λ i user,
                 (λ p, {| h_user_index := i;
                          h_datetime := datetime p.2;
                          h_antenna := p.1 |}) <$> located (records user))
              users).

(** The inner loop: absorb later hits at the same antenna from users not yet
    in the cluster, and [break] once a hit lies beyond the window. *)
Fixpoint grow_cluster (window_seconds : Z) (hit : Hit) (cluster : list Hit)
  (later : list Hit) : list Hit :=
  match later with
  | [] => cluster
  | other :: later' =>
      let delta := h_datetime other - h_datetime hit in
      if delta >? window_seconds then cluster
      else if bool_decide (h_antenna other = h_antenna hit
                           ∧ h_user_index other ≠ h_user_index hit)
      then
        if bool_decide (h_user_index other ∉ h_user_index <$> cluster)
        then grow_cluster window_seconds hit (cluster ++ [other]) later'
        else grow_cluster window_seconds hit cluster later'
      else grow_cluster window_seconds hit cluster later'
  end.

(** [sorted(set(...))] *)
Definition sorted_set (l : list nat) : list nat :=
  sort_by Z.of_nat (elements (list_to_set l : gset nat)).

Definition report_cluster (hit : Hit) (cluster : list Hit) : list Cluster :=
  if (3 <=? length cluster)%nat
  then
    let indices := sorted_set (h_user_index <$> cluster) in
    let times := h_datetime <$> cluster in
    [ {| c_antenna := h_antenna hit;
         user_indices := indices;
         participant_count := length indices;
         earliest_time := py_min times;
         latest_time := py_max times;
         time_span_seconds := py_max times - py_min times |} ]
  else [].

Fixpoint find_clusters (window_seconds : Z) (hits : list Hit) : list Cluster :=
  match hits with
  | [] => []
  | hit :: later =>
      report_cluster hit (grow_cluster window_seconds hit [hit] later)
      ++ find_clusters window_seconds later
  end.

(** The deduplication key; [isoformat()[:16]] is the instant cut to the
    minute. *)
Definition dedup_key (c : Cluster) : string * list nat * Z :=
  (c_antenna c, user_indices c, earliest_time c `div` 60).

Fixpoint deduplicate (seen : gset (string * list nat * Z)) (cs : list Cluster)
  : list Cluster :=
  match cs with
  | [] => []
  | c :: cs' =>
      if bool_decide (dedup_key c ∈ seen) then deduplicate seen cs'
      else c :: deduplicate ({[dedup_key c]} ∪ seen) cs'
  end.

Definition multi_user_colocation (users : list User) (window_minutes : Z)
  : list Cluster :=
  let window_seconds := window_minutes * 60 in
  let hits := sort_by h_datetime (all_hits users) in
  deduplicate ∅ (find_clusters window_seconds hits).

(** *** meeting_detection *)

Inductive Confidence := High | Medium | Low.

Record Meeting := mkMeeting {
  m_antenna_id : string;
  m_time : Z;
  m_coordinates : option Coord;
  m_delta_seconds : Z;
  activity_around : nat;
  confidence : Confidence
}.

(** ['high' if activity_level < 3 else 'medium' if activity_level < 6
    else 'low'] *)
Definition confidence_of (activity_level : nat) : Confidence :=
  if (activity_level <? 3)%nat then High
  else if (activity_level <? 6)%nat then Medium
  else Low.

Definition meeting_of (user_a : User) (gap_seconds : Z) (coloc : Overlap)
  : Meeting :=
  let meeting_time := user_a_time coloc in
  let a_records_around :=
    filter (λ r, Z.abs (datetime r - meeting_time) < gap_seconds)
           (records user_a) in
  let activity_level := length a_records_around in
  {| m_antenna_id := antenna_id coloc;
     m_time := meeting_time;
     m_coordinates := coordinates coloc;
     m_delta_seconds := delta_seconds coloc;
     activity_around := activity_level;
     confidence := confidence_of activity_level |}.

Definition meeting_detection (user_a user_b : User)
  (colocation_window_minutes gap_threshold_minutes : Z) : list Meeting :=
  let colocations :=
    antenna_overlap user_a user_b colocation_window_minutes in
  match colocations with
  | [] => []
  | _ =>
      let gap_seconds := gap_threshold_minutes * 60 in
      meeting_of user_a gap_seconds <$> colocations
  end.

(** *** proximity_to_location *)

Record Presence := mkPresence {
  p_datetime : Z;
  p_antenna_id : string;
  at_target : bool;
  p_interaction : Interaction;
  p_correspondent_id : option string
}.

(** The body of the loop for one record; [target_datetime] is [None] when
    all the records at the target are wanted. *)
Definition presence_of (target_antenna : string) (target_datetime : option Z)
  (window_minutes : Z) (r : BRecord) : option Presence :=
  match antenna (position r) with
  | None => None
  | Some a =>
      if decide (a = target_antenna)
      then
        let include :=
          match target_datetime with
          | Some t => Z.abs (datetime r - t) <=? window_minutes * 60
          | None => true
          end in
        if include
        then Some {| p_datetime := datetime r;
                     p_antenna_id := a;
                     at_target := true;
                     p_interaction := interaction r;
                     p_correspondent_id := correspondent_id r |}
        else None
      else None
  end.

Definition proximity_to_location (user : User) (target_antenna : string)
  (target_datetime : option Z) (window_minutes : Z) : list Presence :=
  sort_by p_datetime
    (omap (presence_of target_antenna target_datetime window_minutes)
          (records user)).

(** ** network.py *)

(** [user_ids[i]] *)
Definition get_id (user_ids : list string) (i : nat) : result string :=
  match user_ids !! i with
  | Some user_id => Ok user_id
  | None => Raise IndexError
  end.

(** [for i, user in enumerate(users): user_id = user_ids[i]; body], threading
    the value the body updates. *)
Fixpoint for_users {St} (body : string → User → St → result St)
  (user_ids : list string) (i : nat) (users : list User) (s : St) : result St :=
  match users with
  | [] => Ok s
  | user :: users' =>
      user_id ← get_id user_ids i;
      s' ← body user_id user s;
      for_users body user_ids (S i) users' s'
  end.

(** *** build_communication_matrix *)

Definition Edge : Type := option string * option string.

Definition edge_of (user_id : string) (r : BRecord) : Edge :=
  match direction r with
  | DirOut => (Some user_id, correspondent_id r)
  | DirIn => (correspondent_id r, Some user_id)
  end.

Definition build_communication_matrix (users : list User)
  (user_ids : list string) : result (odict Edge nat) :=
  for_users
    (λ user_id user matrix,
       Ok (fold_left (λ m r, dict_update 0%nat S (edge_of user_id r) m)
                     (records user) matrix))
    user_ids 0%nat users [].

(** *** degree_centrality *)

Record Centrality := mkCentrality {
  total_contacts : nat;
  in_network_contacts : nat;
  out_of_network_contacts : nat;
  in_network_list : list (option string);
  out_of_network_list : list (option string)
}.

(** [set(r.correspondent_id for r in user.records)] *)
Definition contact_set (user : User) : gset (option string) :=
  list_to_set (correspondent_id <$> records user).

(** [set(user_ids)] *)
Definition id_set (user_ids : list string) : gset (option string) :=
  list_to_set (Some <$> user_ids).

Definition centrality_of (user_id_set : gset (option string)) (user : User)
  : Centrality :=
  let contacts := contact_set user in
  let in_network := contacts ∩ user_id_set in
  let out_network := contacts ∖ user_id_set in
  {| total_contacts := size contacts;
     in_network_contacts := size in_network;
     out_of_network_contacts := size out_network;
     in_network_list := elements in_network;
     out_of_network_list := elements out_network |}.

Definition degree_centrality (users : list User) (user_ids : list string)
  : result (odict string Centrality) :=
  let user_id_set := id_set user_ids in
  results ← for_users
    (λ user_id user results,
       Ok (dict_set user_id (centrality_of user_id_set user) results))
    user_ids 0%nat users [];
  Ok (sort_by_desc (λ x, Z.of_nat (total_contacts x.2)) results).

(** *** communication_chains *)

Record Comm := mkComm {
  comm_from : string;
  comm_to : option string;
  comm_time : Z
}.

Record Chain := mkChain {
  sequence : list (option string);
  times : list Z;
  total_time_seconds : Z;
  a_to_b : Comm;
  b_to_c : Comm
}.

Definition outgoing (user_id : string) (user : User) : list Comm :=
  omap (λ r, match direction r with
             | DirOut => Some {| comm_from := user_id;
                                 comm_to := correspondent_id r;
                                 comm_time := datetime r |}
             | DirIn => None
             end)
       (records user).

(** The inner loop of the chain search, for one first hop. *)
Fixpoint chains_from (window_seconds : Z) (comm_ab : Comm) (later : list Comm)
  : list Chain :=
  match later with
  | [] => []
  | comm_bc :: later' =>
      let delta := comm_time comm_bc - comm_time comm_ab in
      if delta >? window_seconds then []
      else
        (if bool_decide (comm_to comm_ab = Some (comm_from comm_bc))
         then [ {| sequence := [Some (comm_from comm_ab); comm_to comm_ab;
                                comm_to comm_bc];
                   times := [comm_time comm_ab; comm_time comm_bc];
                   total_time_seconds := delta;
                   a_to_b := comm_ab;
                   b_to_c := comm_bc |} ]
         else [])
        ++ chains_from window_seconds comm_ab later'
  end.

Fixpoint find_chains (window_seconds : Z) (all_comms : list Comm)
  : list Chain :=
  match all_comms with
  | [] => []
  | comm_ab :: later =>
      chains_from window_seconds comm_ab later
      ++ find_chains window_seconds later
  end.

Definition communication_chains (users : list User) (user_ids : list string)
  (time_window_minutes : Z) : result (list Chain) :=
  let window_seconds := time_window_minutes * 60 in
  all_comms ← for_users
    (λ user_id user comms, Ok (comms ++ outgoing user_id user))
    user_ids 0%nat users [];
  Ok (find_chains window_seconds (sort_by comm_time all_comms)).

(** *** shared_contacts *)

Definition shared_contacts (users : list User) (user_ids : list string)
  (min_shared : Z) : result (odict (option string) (list string)) :=
  contact_to_users ← for_users
    (λ user_id user c2u,
       Ok (fold_left (λ d contact, dict_update [] (λ l, l ++ [user_id]) contact d)
                     (elements (contact_set user)) c2u))
    user_ids 0%nat users [];
  let shared :=
    filter (λ kv, min_shared ≤ Z.of_nat (length kv.2)) contact_to_users in
  Ok (sort_by_desc (λ x, Z.of_nat (length x.2)) shared).

(** *** communication_volume_matrix *)

Record Volume := mkVolume {
  v_total : nat;
  v_calls : nat;
  v_texts : nat;
  v_duration : Z
}.

(** [tuple(sorted([user_id, r.correspondent_id]))]: comparing a string with
    [None] raises [TypeError]. *)
Definition sorted_pair (user_id : string) (correspondent : option string)
  : result (string * string) :=
  match correspondent with
  | None => Raise TypeError
  | Some c => Ok (if String.ltb c user_id then (c, user_id) else (user_id, c))
  end.

Definition add_volume (r : BRecord) (v : Volume) : Volume :=
  match interaction r with
  | Call =>
      {| v_total := S (v_total v); v_calls := S (v_calls v);
         v_texts := v_texts v;
         v_duration :=
           match call_duration r with
           | Some d => if d =? 0 then v_duration v else v_duration v + d
           | None => v_duration v
           end |}
  | Text =>
      {| v_total := S (v_total v); v_calls := v_calls v;
         v_texts := S (v_texts v); v_duration := v_duration v |}
  end.

Fixpoint volume_of_records (user_id : string) (rs : list BRecord)
  (matrix : odict (string * string) Volume)
  : result (odict (string * string) Volume) :=
  match rs with
  | [] => Ok matrix
  | r :: rs' =>
      pair ← sorted_pair user_id (correspondent_id r);
      volume_of_records user_id rs'
        (dict_update (mkVolume 0 0 0 0) (add_volume r) pair matrix)
  end.

Definition communication_volume_matrix (users : list User)
  (user_ids : list string) : result (odict (string * string) Volume) :=
  matrix ← for_users
    (λ user_id user matrix, volume_of_records user_id (records user) matrix)
    user_ids 0%nat users [];
  Ok (sort_by_desc (λ x, Z.of_nat (v_total x.2)) matrix).

(** *** network_timeline *)

Record PairComm := mkPairComm {
  pc_time : Z;
  pc_pair : string * string
}.

Record Bucket := mkBucket {
  b_start : Z;
  b_end : Z;
  active_pairs : list (string * string);
  unique_pair_count : nat;
  total_communications : nat
}.

Fixpoint pair_comms (user_id : string) (rs : list BRecord)
  (all_comms : list PairComm) : result (list PairComm) :=
  match rs with
  | [] => Ok all_comms
  | r :: rs' =>
      pair ← sorted_pair user_id (correspondent_id r);
      pair_comms user_id rs'
        (all_comms ++ [ {| pc_time := datetime r; pc_pair := pair |} ])
  end.

(** [t.replace(hour=0, minute=0, second=0, microsecond=0)] *)
Definition midnight (t : Z) : Z := t - t `mod` 86400.

(** [timedelta(hours=h)], in seconds. *)
Definition hours (h : Z) : Z := h * 3600.

Definition bucket_of (all_comms : list PairComm) (current_start current_end : Z)
  : list Bucket :=
  let bucket_comms :=
    filter (λ c, current_start ≤ pc_time c < current_end) all_comms in
  match bucket_comms with
  | [] => []
  | _ =>
      let pairs := elements (list_to_set (pc_pair <$> bucket_comms)
                             : gset (string * string)) in
      [ {| b_start := current_start;
           b_end := current_end;
           active_pairs := pairs;
           unique_pair_count := length pairs;
           total_communications := length bucket_comms |} ]
  end.

(** The [while] loop; [fuel] bounds the number of iterations, and [None]
    means that the loop is still running when the fuel is spent. *)
Fixpoint bucket_loop (fuel : nat) (all_comms : list PairComm)
  (bucket_delta last_time current_start : Z) (buckets : list Bucket)
  : option (list Bucket) :=
  match fuel with
  | O => None
  | S fuel' =>
      if current_start <=? last_time
      then
        let current_end := current_start + bucket_delta in
        bucket_loop fuel' all_comms bucket_delta last_time current_end
          (buckets ++ bucket_of all_comms current_start current_end)
      else Some buckets
  end.

Definition collect_pair_comms (users : list User) (user_ids : list string)
  : result (list PairComm) :=
  for_users (λ user_id user comms, pair_comms user_id (records user) comms)
    user_ids 0%nat users [].

Definition network_timeline (fuel : nat) (users : list User)
  (user_ids : list string) (time_bucket_hours : Z)
  : option (result (list Bucket)) :=
  match collect_pair_comms users user_ids with
  | Raise e => Some (Raise e)
  | Ok all_comms =>
      match sort_by pc_time all_comms with
      | [] => Some (Ok [])
      | (first :: _) as sorted_comms =>
          let bucket_delta := hours time_bucket_hours in
          let last_time := pc_time (List.last sorted_comms first) in
          Ok <$> bucket_loop fuel sorted_comms bucket_delta last_time
                   (midnight (pc_time first)) []
      end
  end.

(** *** identify_bridges *)

Record Bridge := mkBridge {
  bridge_user_id : string;
  exclusive_contacts : list (option string);
  exclusive_count : nat;
  bridge_total_contacts : nat
}.

(** The union of the in-network contacts of every other entry. *)
Definition others_contacts (user_contacts : odict string (gset (option string)))
  (user_id : string) : gset (option string) :=
  fold_left (λ acc kv, if decide (kv.1 ≠ user_id) then acc ∪ kv.2 else acc)
            user_contacts ∅.

Definition bridge_of (user_contacts : odict string (gset (option string)))
  (entry : string * gset (option string)) : list Bridge :=
  let user_id := entry.1 in
  let contacts := entry.2 in
  let exclusive :=
    (contacts ∖ others_contacts user_contacts user_id) ∖ {[Some user_id]} in
  if bool_decide (exclusive = ∅) then []
  else [ {| bridge_user_id := user_id;
            exclusive_contacts := elements exclusive;
            exclusive_count := size exclusive;
            bridge_total_contacts := size contacts |} ].

Definition identify_bridges (users : list User) (user_ids : list string)
  : result (list Bridge) :=
  let user_id_set := id_set user_ids in
  user_contacts ← for_users
    (λ user_id user uc, Ok (dict_set user_id (contact_set user ∩ user_id_set) uc))
    user_ids 0%nat users [];
  Ok (sort_by_desc (λ b, Z.of_nat (exclusive_count b))
        (user_contacts ≫= bridge_of user_contacts)).

(** ** Notions used to state the properties *)

(** An entity's coordinate table, [None] read as the empty table. *)
Definition table_of (user : User) : gmap string Coord :=
  default ∅ (antennas user).

(** The coordinate of a tag resolved tag by tag: A's entry if there is one,
    otherwise B's. *)
Definition coordinate_per_location (user_a user_b : User) (ant : string)
  : option Coord :=
  match table_of user_a !! ant with
  | Some c => Some c
  | None => table_of user_b !! ant
  end.

(** The (location, A-side time, B-side time) triples of a list of overlaps. *)
Definition matches (os : list Overlap) : list (string * Z * Z) :=
  (λ o, (antenna_id o, user_a_time o, user_b_time o)) <$> os.

(** What every reported cluster satisfies, given a bound on the entity
    indices of the hits it was grown from. *)
Definition cluster_ok (n : nat) (c : Cluster) : Prop :=
  NoDup (user_indices c) ∧ (3 ≤ length (user_indices c))%nat ∧
  participant_count c = length (user_indices c) ∧
  ∀ i, i ∈ user_indices c → (i < n)%nat.

(** The chain made of two hops. *)
Definition chain_of (comm_ab comm_bc : Comm) : Chain :=
  {| sequence := [Some (comm_from comm_ab); comm_to comm_ab; comm_to comm_bc];
     times := [comm_time comm_ab; comm_time comm_bc];
     total_time_seconds := comm_time comm_bc - comm_time comm_ab;
     a_to_b := comm_ab;
     b_to_c := comm_bc |}.

(** [z] is listed among [x]'s exclusive contacts and under no other
    entity's. *)
Definition lists_exclusively (bridges : list Bridge) (x : string)
  (z : option string) : Prop :=
  (∃ b, b ∈ bridges ∧ bridge_user_id b = x ∧ z ∈ exclusive_contacts b) ∧
  (∀ b, b ∈ bridges → bridge_user_id b ≠ x → z ∉ exclusive_contacts b).

(** The count of an edge in a communication matrix ([0] when absent). *)
Definition matrix_count (m : odict Edge nat) (e : Edge) : nat :=
  default 0%nat (dict_get e m).

(** The edges of all the records, entity by entity. *)
Definition all_edges (users : list User) (user_ids : list string) : list Edge :=
  zip user_ids users ≫= λ p, edge_of p.1 <$> records p.2.



(** [c] is an outgoing record of a modeled entity. *)
Definition outgoing_record (users : list User) (user_ids : list string)
  (c : Comm) : Prop :=
  ∃ i user r,
    user_ids !! i = Some (comm_from c) ∧ users !! i = Some user ∧
    r ∈ records user ∧ direction r = DirOut ∧
    correspondent_id r = comm_to c ∧ datetime r = comm_time c.

#[global] Instance Direction_eq_dec : EqDecision Direction.
Proof. solve_decision. Defined.

(** An entity without its incoming records. *)
Definition only_outgoing (user : User) : User :=
  {| records := filter (λ r, direction r = DirOut) (records user);
     antennas := antennas user |}.

(** The number of records of all the entities. *)
Definition record_count (users : list User) : nat :=
  sum_list ((λ user, length (records user)) <$> users).

(** A bucket of the given width with at least one communication and at
    most as many pairs as communications. *)
Definition bucket_shape (delta : Z) (b : Bucket) : Prop :=
  b_end b = b_start b + delta ∧
  (1 ≤ unique_pair_count b ≤ total_communications b)%nat ∧
  unique_pair_count b = length (active_pairs b) ∧ NoDup (active_pairs b).

(** ** Sample inputs *)

Definition located_record (t : Z) (ant : string) : BRecord :=
  {| datetime := t; position := {| antenna := Some ant |};
     correspondent_id := Some "555-0100"; direction := DirOut;
     interaction := Call; call_duration := Some 60 |}.

(** A is seen at T1 at 10:00:00 and 10:40:00 and knows only where T2 is;
    B is seen at T1 at 10:05:00 and knows where T1 is. *)
Definition sample_a : User :=
  {| records := [located_record 36000 "T1"; located_record 37200 "T2";
                 located_record 38400 "T1"];
     antennas := Some {["T2" := (42361000, -71057000)]} |}.

Definition sample_b : User :=
  {| records := [located_record 36300 "T1"; located_record 50000 "T3";
                 located_record 60000 "T3"];
     antennas := Some {["T1" := (42374000, -71106000)]} |}.

(** A third entity, seen at T1 at 10:10:00. *)
Definition sample_c : User :=
  {| records := [located_record 36600 "T1"]; antennas := None |}.

(** An outgoing call to [callee] at instant [t], and the entity whose only
    record it is. *)
Definition call_to (t : Z) (callee : string) : BRecord :=
  {| datetime := t; position := {| antenna := None |};
     correspondent_id := Some callee; direction := DirOut;
     interaction := Call; call_duration := Some 30 |}.

Definition caller (r : BRecord) : User :=
  {| records := [r]; antennas := None |}.

(** An outgoing call at instant [t] to any correspondent, null included. *)
Definition outgoing_to (t : Z) (correspondent : option string) : BRecord :=
  {| datetime := t; position := {| antenna := None |};
     correspondent_id := correspondent; direction := DirOut;
     interaction := Call; call_duration := Some 30 |}.

(** The timeline A→B at [t0], B→C five minutes later, C→D at [t0 + 4000]. *)
Definition relay_timeline (t0 : Z) : list User :=
  [caller (call_to t0 "B"); caller (call_to (t0 + 300) "C");
   caller (call_to (t0 + 4000) "D")].

(** Two entities that call each other on two consecutive days. *)
Definition sample_network : list User :=
  [caller (call_to 36000 "B"); caller (call_to 122400 "A")].

(** The entities A, B and C: A calls the outsider Z, B and C call each
    other. *)
Definition sample_entities : list User :=
  [caller (call_to 1000 "Z"); caller (call_to 2000 "C");
   caller (call_to 3000 "B")].

(** An outgoing text whose correspondent is unknown. *)
Definition anonymous_text (t : Z) : BRecord :=
  {| datetime := t; position := {| antenna := None |};
     correspondent_id := None; direction := DirOut;
     interaction := Text; call_duration := None |}.

(** A calls B and sends a text to an unknown number; B calls A. *)
Definition sample_anonymous : list User :=
  [ {| records := [call_to 1000 "B"; anonymous_text 2000]; antennas := None |};
    caller (call_to 3000 "A") ].

(** B arrives at T2 from T1 two minutes after A, and stays there. *)
Definition sample_follower : User :=
  {| records := [located_record 36100 "T1"; located_record 37320 "T2";
                 located_record 39000 "T2"];
     antennas := None |}.

(** * Properties *)

(** ** The stable sort *)

Lemma insert_by_perm {A} (key : A → Z) x l : insert_by key x l ≡ₚ x :: l.
Proof.
  induction l as [|y l IH]; simpl; [done|].
  destruct (key x <=? key y); [done|].
  rewrite IH. apply Permutation_swap.
Qed.

Lemma sort_by_perm {A} (key : A → Z) l : sort_by key l ≡ₚ l.
Proof.
  induction l as [|x l IH]; simpl; [done|].
  rewrite insert_by_perm. by rewrite IH.
Qed.

Lemma elem_of_sort_by {A} (key : A → Z) l x : x ∈ sort_by key l ↔ x ∈ l.
Proof. by rewrite sort_by_perm. Qed.

Lemma sort_by_nil_inv {A} (key : A → Z) l : sort_by key l = [] → l = [].
Proof.
  intros H. apply Permutation_nil_r. rewrite <- H. by rewrite sort_by_perm.
Qed.

(** ** antenna_overlap *)

Lemma located_tag_Some r a :
  located_tag r = Some a ↔ antenna (position r) = Some a ∧ a ≠ "".
Proof.
  unfold located_tag. destruct (antenna (position r)) as [s|].
  - destruct s; simpl; split.
    + discriminate.
    + intros [[= <-] Hne]. by destruct Hne.
    + intros [= <-]. done.
    + intros [[= <-] _]. done.
  - split; [discriminate|]. by intros [? _].
Qed.

Lemma index_fold_lookup rs (idx : gmap string (list BRecord)) a r :
  (∃ bucket,
      fold_left
        (λ idx r,
           match located_tag r with
           | Some a => <[a := default [] (idx !! a) ++ [r]]> idx
           | None => idx
           end) rs idx !! a = Some bucket ∧ r ∈ bucket)
  ↔ (∃ bucket, idx !! a = Some bucket ∧ r ∈ bucket)
    ∨ (r ∈ rs ∧ located_tag r = Some a).
Proof.
  revert idx. induction rs as [|r0 rs IH]; intros idx; simpl.
  - split; [by left|]. intros [H|[H _]]; [done|]. by apply elem_of_nil in H.
  - rewrite IH. clear IH. rewrite elem_of_cons.
    destruct (located_tag r0) as [a0|] eqn:Htag.
    + destruct (decide (a0 = a)) as [->|Hne].
      * rewrite lookup_insert_eq. split.
        -- intros [(bucket & [= <-] & Hin)|[Hin Hr]];
             [|right; by split; [right|]].
           apply elem_of_app in Hin as [Hin|Hin].
           ++ left. destruct (idx !! a) as [bk|]; simpl in Hin.
              ** eauto.
              ** by apply elem_of_nil in Hin.
           ++ apply list_elem_of_singleton in Hin as ->. right. by split; [left|].
        -- intros [(bucket & Hb & Hin)|[[->|Hin] Hr]].
           ++ left. eexists. split; [done|]. rewrite Hb. simpl.
              apply elem_of_app. by left.
           ++ left. eexists. split; [done|]. apply elem_of_app. right.
              by apply list_elem_of_singleton.
           ++ by right.
      * rewrite lookup_insert_ne by done. split.
        -- intros [H|[Hin Hr]]; [by left|]. right. by split; [right|].
        -- intros [H|[[->|Hin] Hr]]; [by left| congruence |by right].
    + split.
      * intros [H|[Hin Hr]]; [by left|]. right. by split; [right|].
      * intros [H|[[->|Hin] Hr]]; [by left| congruence |by right].
Qed.

Lemma index_by_antenna_lookup rs a r :
  (∃ bucket, index_by_antenna rs !! a = Some bucket ∧ r ∈ bucket)
  ↔ r ∈ rs ∧ located_tag r = Some a.
Proof.
  unfold index_by_antenna. rewrite index_fold_lookup. split.
  - intros [(bucket & H & _)|H]; [|done]. by rewrite lookup_empty in H.
  - by right.
Qed.

(** What the join returns: one result for every pair of a record of A and a
    located record of B with the same tag, no further apart than the window. *)
Lemma elem_of_antenna_overlap user_a user_b w o :
  o ∈ antenna_overlap user_a user_b w ↔
  ∃ rec_a rec_b ant,
    rec_a ∈ records user_a ∧ rec_b ∈ records user_b ∧
    antenna (position rec_a) = Some ant ∧
    antenna (position rec_b) = Some ant ∧ ant ≠ "" ∧
    Z.abs (datetime rec_a - datetime rec_b) ≤ w * 60 ∧
    o = {| antenna_id := ant;
           user_a_time := datetime rec_a;
           user_b_time := datetime rec_b;
           delta_seconds := Z.abs (datetime rec_a - datetime rec_b);
           coordinates := select_antennas user_a user_b !! ant |}.
Proof.
  unfold antenna_overlap. rewrite elem_of_sort_by, list_elem_of_bind. split.
  - intros (rec_a & Ho & Ha).
    destruct (antenna (position rec_a)) as [ant|] eqn:Hant;
      [|by apply elem_of_nil in Ho].
    destruct (index_by_antenna (records user_b) !! ant) as [bucket|] eqn:Hidx;
      [|by apply elem_of_nil in Ho].
    unfold overlaps_of_bucket in Ho.
    apply list_elem_of_bind in Ho as (rec_b & Ho & Hb).
    destruct (Z.leb_spec (Z.abs (datetime rec_a - datetime rec_b)) (w * 60))
      as [Hle|Hgt]; [|by apply elem_of_nil in Ho].
    apply list_elem_of_singleton in Ho.
    assert (rec_b ∈ records user_b ∧ located_tag rec_b = Some ant) as [Hb' Htag]
      by (apply index_by_antenna_lookup; eauto).
    apply located_tag_Some in Htag as [Hb_ant Hne].
    exists rec_a, rec_b, ant. done.
  - intros (rec_a & rec_b & ant & Ha & Hb & Ha_ant & Hb_ant & Hne & Hle & ->).
    exists rec_a. split; [|done]. rewrite Ha_ant.
    assert (∃ bucket, index_by_antenna (records user_b) !! ant = Some bucket
                      ∧ rec_b ∈ bucket) as (bucket & -> & Hin).
    { apply index_by_antenna_lookup. split; [done|].
      by apply located_tag_Some. }
    unfold overlaps_of_bucket. apply list_elem_of_bind. exists rec_b.
    split; [|done].
    destruct (Z.leb_spec (Z.abs (datetime rec_a - datetime rec_b)) (w * 60));
      [|lia].
    by apply list_elem_of_singleton.
Qed.

(** The scenario of the specification: with a 30-minute window the join of
    the two samples is the single pair 10:00:00 / 10:05:00, 300 seconds
    apart; the 10:40:00 record matches nothing. *)
Example antenna_overlap_sample :
  antenna_overlap sample_a sample_b 30 =
  [ {| antenna_id := "T1"; user_a_time := 36000; user_b_time := 36300;
       delta_seconds := 300; coordinates := None |} ].
Proof. vm_compute. reflexivity. Qed.

Lemma select_antennas_spec user_a user_b :
  (table_of user_a ≠ ∅ → select_antennas user_a user_b = table_of user_a) ∧
  (table_of user_a = ∅ → select_antennas user_a user_b = table_of user_b).
Proof.
  unfold select_antennas, table_of, dict_truthy.
  destruct (antennas user_a) as [ma|], (antennas user_b) as [mb|]; simpl;
    repeat case_bool_decide; simpl; subst; split; intros; congruence.
Qed.

(** C1, as the code has it: the coordinate of every overlap is looked up in
    one table, chosen once for the whole call and not tag by tag: entity A's
    table when it is not empty, and entity B's table otherwise. *)
Theorem antenna_overlap_coordinates user_a user_b w o :
  o ∈ antenna_overlap user_a user_b w →
  (table_of user_a ≠ ∅ →
     coordinates o = table_of user_a !! antenna_id o) ∧
  (table_of user_a = ∅ →
     coordinates o = table_of user_b !! antenna_id o).
Proof.
  intros Ho. apply elem_of_antenna_overlap in Ho
    as (rec_a & rec_b & ant & _ & _ & _ & _ & _ & _ & ->). simpl.
  destruct (select_antennas_spec user_a user_b) as [Hne Hempty].
  split; intros H; [rewrite Hne | rewrite Hempty]; done.
Qed.

Lemma antenna_overlap_coordinates_witness :
  coordinates (mkOverlap "T1" 36000 36300 300 None)
  = table_of sample_a !! "T1"%string.
Proof.
  refine (proj1 (antenna_overlap_coordinates sample_a sample_b 30
                   (mkOverlap "T1" 36000 36300 300 None) _) _).
  - rewrite antenna_overlap_sample. apply list_elem_of_singleton. reflexivity.
  - vm_compute. discriminate.
Defined.

(** C1 as stated fails: B's table knows tag T1, A's table is not empty but
    does not know it, and the overlap at T1 carries no coordinate. *)
Lemma antenna_overlap_coordinates_counterexample :
  ¬ (∀ o, o ∈ antenna_overlap sample_a sample_b 30 →
          coordinates o
          = coordinate_per_location sample_a sample_b (antenna_id o)).
Proof.
  intros H.
  specialize (H (mkOverlap "T1" 36000 36300 300 None)).
  rewrite antenna_overlap_sample in H.
  specialize (H (list_elem_of_here _ _)).
  vm_compute in H. discriminate H.
Qed.

(** C5: the join of A with B and the join of B with A report the same
    (location, timestamp pair) matches, with the two timestamps swapped.
    This holds for all record collections and all windows. *)
Theorem antenna_overlap_symmetry user_a user_b w loc ta tb :
  (loc, ta, tb) ∈ matches (antenna_overlap user_a user_b w) ↔
  (loc, tb, ta) ∈ matches (antenna_overlap user_b user_a w).
Proof.
  assert (∀ ua ub l t1 t2,
    (l, t1, t2) ∈ matches (antenna_overlap ua ub w) →
    (l, t2, t1) ∈ matches (antenna_overlap ub ua w)) as Hdir.
  { intros ua ub l t1 t2. unfold matches. rewrite !list_elem_of_fmap.
    intros (o & Heq & Ho).
    apply elem_of_antenna_overlap in Ho
      as (rec_a & rec_b & ant & Ha & Hb & Ha_ant & Hb_ant & Hne & Hle & ->).
    simpl in Heq. injection Heq as -> -> ->.
    eexists. split; [|apply elem_of_antenna_overlap].
    2:{ exists rec_b, rec_a, ant. repeat split; try done.
        rewrite <- Z.abs_opp. by replace (- (datetime rec_b - datetime rec_a))
          with (datetime rec_a - datetime rec_b) by lia. }
    done. }
  split; apply Hdir.
Qed.

(** C6: widening the window only adds overlaps. *)
Theorem antenna_overlap_monotone user_a user_b w1 w2 o :
  w1 < w2 →
  o ∈ antenna_overlap user_a user_b w1 →
  o ∈ antenna_overlap user_a user_b w2.
Proof.
  intros Hw. rewrite !elem_of_antenna_overlap.
  intros (rec_a & rec_b & ant & Ha & Hb & Ha_ant & Hb_ant & Hne & Hle & ->).
  exists rec_a, rec_b, ant. repeat split; try done. lia.
Qed.

Lemma antenna_overlap_monotone_witness :
  mkOverlap "T1" 36000 36300 300 None ∈ antenna_overlap sample_a sample_b 45.
Proof.
  apply (antenna_overlap_monotone sample_a sample_b 30 45).
  - lia.
  - rewrite antenna_overlap_sample. apply list_elem_of_here.
Defined.

(** ** multi_user_colocation *)

Lemma grow_cluster_elem w hit cluster later h :
  h ∈ grow_cluster w hit cluster later → h ∈ cluster ∨ h ∈ later.
Proof.
  revert cluster. induction later as [|other later IH]; intros cluster; simpl.
  - by left.
  - destruct (_ >? _); [by left|].
    repeat case_bool_decide; intros Hin; apply IH in Hin;
      rewrite ?elem_of_app, ?list_elem_of_singleton in Hin;
      rewrite elem_of_cons; tauto.
Qed.

Lemma grow_cluster_NoDup w hit cluster later :
  NoDup (h_user_index <$> cluster) →
  NoDup (h_user_index <$> grow_cluster w hit cluster later).
Proof.
  revert cluster. induction later as [|other later IH]; intros cluster Hnd;
    simpl; [done|].
  destruct (_ >? _); [done|].
  case_bool_decide; [|by apply IH].
  case_bool_decide as Hfresh; [|by apply IH].
  apply IH. rewrite fmap_app. simpl.
  apply NoDup_app. split_and!; [done| |apply NoDup_singleton].
  intros i Hi Hi'. apply list_elem_of_singleton in Hi'. by subst.
Qed.

Lemma sorted_set_perm l : NoDup l → sorted_set l ≡ₚ l.
Proof.
  intros Hnd. unfold sorted_set. rewrite sort_by_perm.
  by apply elements_list_to_set.
Qed.

Lemma report_cluster_ok n hit cluster c :
  NoDup (h_user_index <$> cluster) →
  (∀ h, h ∈ cluster → (h_user_index h < n)%nat) →
  c ∈ report_cluster hit cluster → cluster_ok n c.
Proof.
  intros Hnd Hbound. unfold report_cluster.
  destruct (Nat.leb_spec 3 (length cluster)) as [Hlen|_];
    [|by intros ?%elem_of_nil].
  intros ->%list_elem_of_singleton. unfold cluster_ok. simpl.
  pose proof (sorted_set_perm _ Hnd) as Hperm.
  split_and!.
  - by rewrite Hperm.
  - by rewrite Hperm, length_fmap.
  - done.
  - intros i. rewrite Hperm, list_elem_of_fmap. intros (h & -> & Hh). auto.
Qed.

Lemma find_clusters_ok n w hits c :
  (∀ h, h ∈ hits → (h_user_index h < n)%nat) →
  c ∈ find_clusters w hits → cluster_ok n c.
Proof.
  induction hits as [|hit later IH]; simpl; intros Hbound.
  - by intros ?%elem_of_nil.
  - rewrite elem_of_app. intros [Hc|Hc].
    + eapply report_cluster_ok; [| |exact Hc].
      * apply grow_cluster_NoDup. simpl. apply NoDup_singleton.
      * intros h Hh. apply Hbound.
        apply grow_cluster_elem in Hh as [Hh|Hh].
        -- apply list_elem_of_singleton in Hh as ->. left.
        -- by right.
    + apply IH; [|done]. intros h Hh. apply Hbound. by right.
Qed.

Lemma deduplicate_elem seen cs c : c ∈ deduplicate seen cs → c ∈ cs.
Proof.
  revert seen. induction cs as [|c0 cs IH]; intros seen; simpl; [done|].
  case_bool_decide.
  - intros Hc. right. by eapply IH.
  - rewrite !elem_of_cons. intros [->|Hc]; [by left|]. right. by eapply IH.
Qed.

Lemma all_hits_index users h :
  h ∈ all_hits users → (h_user_index h < length users)%nat.
Proof.
  unfold all_hits. rewrite list_elem_of_join. intros (l & Hh & Hl).
  apply elem_of_lookup_imap in Hl as (i & user & -> & Hi).
  apply list_elem_of_fmap in Hh as (p & -> & _). simpl.
  by eapply lookup_lt_Some.
Qed.

Lemma multi_user_colocation_ok users w c :
  c ∈ multi_user_colocation users w → cluster_ok (length users) c.
Proof.
  unfold multi_user_colocation. intros Hc%deduplicate_elem.
  eapply find_clusters_ok; [|exact Hc].
  intros h Hh%elem_of_sort_by. by apply all_hits_index.
Qed.

Lemma cluster_ok_three_entities n c : cluster_ok n c → (3 ≤ n)%nat.
Proof.
  intros (Hnd & Hlen & _ & Hbound).
  assert (user_indices c ⊆+ seq 0 n) as Hsub.
  { apply NoDup_submseteq; [done|]. intros i Hi. apply elem_of_seq.
    specialize (Hbound i Hi). lia. }
  apply submseteq_length in Hsub. rewrite length_seq in Hsub. lia.
Qed.

(** The three samples meet at T1 between 10:00:00 and 10:10:00. *)
Example multi_user_colocation_sample :
  multi_user_colocation [sample_a; sample_b; sample_c] 30 =
  [ {| c_antenna := "T1"; user_indices := [0; 1; 2]%nat;
       participant_count := 3; earliest_time := 36000;
       latest_time := 36600; time_span_seconds := 600 |} ].
Proof. vm_compute. reflexivity. Qed.

(** C4: every cluster reported by the multi-party clusterer lists at least
    three entity indices, all different and all indices of input entities,
    and its participant count is their number; with fewer than three
    entities nothing is reported. *)
Theorem multi_user_colocation_min_three users w :
  (∀ c, c ∈ multi_user_colocation users w →
     NoDup (user_indices c) ∧ (3 ≤ length (user_indices c))%nat ∧
     participant_count c = length (user_indices c) ∧
     ∀ i, i ∈ user_indices c → (i < length users)%nat) ∧
  ((length users < 3)%nat → multi_user_colocation users w = []).
Proof.
  split.
  - intros c Hc. exact (multi_user_colocation_ok users w c Hc).
  - intros Hlen.
    destruct (multi_user_colocation users w) as [|c cs] eqn:Hres; [done|].
    assert (c ∈ multi_user_colocation users w) as Hc
      by (rewrite Hres; left).
    apply (multi_user_colocation_ok users w) in Hc.
    apply cluster_ok_three_entities in Hc. lia.
Qed.

Lemma multi_user_colocation_min_three_witness :
  (3 ≤ length [0; 1; 2]%nat)%nat ∧
  multi_user_colocation [sample_a; sample_b] 30 = [].
Proof.
  split.
  - refine (proj1 (proj2 (proj1
      (multi_user_colocation_min_three [sample_a; sample_b; sample_c] 30)
      (mkCluster "T1" [0; 1; 2]%nat 3 36000 36600 600) _))).
    rewrite multi_user_colocation_sample. apply list_elem_of_here.
  - apply (proj2 (multi_user_colocation_min_three [sample_a; sample_b] 30)).
    simpl. lia.
Defined.

(** ** travel_pattern_match *)

Example get_transitions_sample :
  get_transitions sample_a =
  [ {| t_from := "T1"; t_to := "T2"; t_time := 37200 |};
    {| t_from := "T2"; t_to := "T1"; t_time := 38400 |} ].
Proof. vm_compute. reflexivity. Qed.

(** C8: the minimum sequence length is not used: two calls that differ only
    in it return the same matches. *)
Theorem travel_pattern_match_min_sequence_length user_a user_b w m1 m2 :
  travel_pattern_match user_a user_b w m1
  = travel_pattern_match user_a user_b w m2.
Proof. reflexivity. Qed.

(** ** communication_chains *)

Ltac decide_leb :=
  repeat match goal with
    | |- context [?x <=? ?y] =>
        first [ replace (x <=? y) with true by (symmetry; apply Z.leb_le; lia)
              | replace (x <=? y) with false by (symmetry; apply Z.leb_gt; lia) ]
    | |- context [?x >? ?y] =>
        first [ replace (x >? y) with true by (symmetry; apply Z.gtb_gt; lia)
              | replace (x >? y) with false
                  by (symmetry; rewrite Z.gtb_ltb; apply Z.ltb_ge; lia) ]
    end.

(** C7: on the relay timeline, with a window of 600 seconds (10 minutes),
    exactly one chain is reported: A, B, C at [t0] and [t0 + 300]; the hop
    C→D comes 3700 seconds after B→C and the chain B, C, D is not reported. *)
Theorem communication_chains_relay t0 :
  communication_chains (relay_timeline t0) ["A"; "B"; "C"] 10
  = Ok [ {| sequence := [Some "A"; Some "B"; Some "C"];
            times := [t0; t0 + 300];
            total_time_seconds := 300;
            a_to_b := mkComm "A" (Some "B") t0;
            b_to_c := mkComm "B" (Some "C") (t0 + 300) |} ]
  ∧ ∀ chains ch,
      communication_chains (relay_timeline t0) ["A"; "B"; "C"] 10 = Ok chains →
      ch ∈ chains → sequence ch ≠ [Some "B"; Some "C"; Some "D"].
Proof.
  assert (communication_chains (relay_timeline t0) ["A"; "B"; "C"] 10
          = Ok [ {| sequence := [Some "A"; Some "B"; Some "C"];
                    times := [t0; t0 + 300];
                    total_time_seconds := 300;
                    a_to_b := mkComm "A" (Some "B") t0;
                    b_to_c := mkComm "B" (Some "C") (t0 + 300) |} ]) as Hres.
  { unfold communication_chains, relay_timeline. cbn.
    do 3 (cbn; decide_leb). cbn.
    rewrite bool_decide_eq_true_2 by done. cbn.
    by replace (t0 + 300 - t0) with 300 by lia. }
  split; [exact Hres|].
  intros chains ch Heq Hch. rewrite Hres in Heq. injection Heq as <-.
  apply list_elem_of_singleton in Hch as ->. simpl. discriminate.
Qed.

(** ** network_timeline *)

Lemma insert_by_sorted {A} (key : A → Z) x l :
  StronglySorted (λ a b, key a ≤ key b) l →
  StronglySorted (λ a b, key a ≤ key b) (insert_by key x l).
Proof.
  induction 1 as [|y l Hsorted IH Hall]; simpl.
  - repeat constructor.
  - destruct (Z.leb_spec (key x) (key y)) as [Hle|Hgt].
    + constructor; [by constructor|].
      constructor; [done|]. eapply Forall_impl; [exact Hall|].
      simpl. intros. lia.
    + constructor; [done|]. rewrite insert_by_perm.
      constructor; [lia|done].
Qed.

Lemma sort_by_sorted {A} (key : A → Z) l :
  StronglySorted (λ a b, key a ≤ key b) (sort_by key l).
Proof.
  induction l as [|x l IH]; simpl; [constructor|]. by apply insert_by_sorted.
Qed.

Lemma last_elem_of {A} (l : list A) d : l ≠ [] → List.last l d ∈ l.
Proof.
  induction l as [|y l IH]; intros Hne; [done|].
  destruct l as [|z l]; [left|].
  right. apply IH. discriminate.
Qed.

Lemma sorted_head_le_last {A} (key : A → Z) x l :
  StronglySorted (λ a b, key a ≤ key b) (x :: l) →
  key x ≤ key (List.last (x :: l) x).
Proof.
  intros Hsorted. apply StronglySorted_inv in Hsorted as [_ Hall].
  pose proof (last_elem_of (x :: l) x ltac:(discriminate)) as Hin.
  apply elem_of_cons in Hin as [->|Hin]; [lia|].
  rewrite Forall_forall in Hall. by apply Hall.
Qed.

Lemma midnight_le t : midnight t ≤ t.
Proof. unfold midnight. pose proof (Z.mod_pos_bound t 86400). lia. Qed.

(** With a positive step the loop leaves after finitely many rounds. *)
Lemma bucket_loop_terminates comms delta last_time n :
  0 < delta →
  ∀ start acc,
    last_time - start < Z.of_nat n * delta →
    ∃ buckets, ∀ fuel, (S n ≤ fuel)%nat →
      bucket_loop fuel comms delta last_time start acc = Some buckets.
Proof.
  intros Hdelta. induction n as [|n IH]; intros start acc Hn.
  - exists acc. intros [|fuel] Hfuel; [lia|]. simpl.
    destruct (Z.leb_spec start last_time); [lia|done].
  - destruct (Z.leb_spec start last_time) as [Hle|Hgt].
    + destruct (IH (start + delta)
                  (acc ++ bucket_of comms start (start + delta)))
        as [buckets Hb]; [lia|].
      exists buckets. intros [|fuel] Hfuel; [lia|]. simpl.
      destruct (Z.leb_spec start last_time); [|lia].
      apply Hb. lia.
    + exists acc. intros [|fuel] Hfuel; [lia|]. simpl.
      destruct (Z.leb_spec start last_time); [lia|done].
Qed.

(** With a step of zero the start never moves: it stays before the last
    event, and the loop is still running whatever the fuel. *)
Lemma bucket_loop_diverges comms last_time fuel :
  ∀ start acc,
    start ≤ last_time →
    bucket_loop fuel comms 0 last_time start acc = None.
Proof.
  induction fuel as [|fuel IH]; intros start acc Hle; simpl; [done|].
  destruct (Z.leb_spec start last_time); [|lia].
  rewrite Z.add_0_r. by apply IH.
Qed.

Example network_timeline_sample :
  network_timeline 5 sample_network ["A"; "B"] 24 =
  Some (Ok [ {| b_start := 0; b_end := 86400;
                active_pairs := [("A", "B")]; unique_pair_count := 1;
                total_communications := 1 |};
             {| b_start := 86400; b_end := 172800;
                active_pairs := [("A", "B")]; unique_pair_count := 1;
                total_communications := 1 |} ]).
Proof. vm_compute. reflexivity. Qed.

(** C10: with a positive bucket size the timeline is computed (or an
    exception is raised) after finitely many rounds of the bucketing loop,
    for every input; with a bucket size of zero and at least one
    communication, the start of the bucket never passes the last event and
    the loop never ends. *)
Theorem network_timeline_termination users user_ids h :
  (0 < h →
     ∃ fuel outcome, ∀ fuel', (fuel ≤ fuel')%nat →
       network_timeline fuel' users user_ids h = Some outcome) ∧
  (h = 0 →
     ∀ comms, collect_pair_comms users user_ids = Ok comms → comms ≠ [] →
       ∀ fuel, network_timeline fuel users user_ids h = None).
Proof.
  unfold network_timeline. split.
  - intros Hh. destruct (collect_pair_comms users user_ids) as [comms|e].
    2:{ by exists 0%nat, (Raise e). }
    destruct (sort_by pc_time comms) as [|first rest] eqn:Hsorted.
    { by exists 0%nat, (Ok []). }
    set (last_time := pc_time (List.last (first :: rest) first)).
    set (start := midnight (pc_time first)).
    destruct (bucket_loop_terminates (first :: rest) (hours h) last_time
                (Z.to_nat (last_time - start) + 1) ltac:(unfold hours; lia)
                start [])
      as [buckets Hb].
    { unfold hours. nia. }
    exists (S (Z.to_nat (last_time - start) + 1)), (Ok buckets).
    intros fuel' Hfuel. by rewrite Hb.
  - intros -> comms -> Hne fuel.
    destruct (sort_by pc_time comms) as [|first rest] eqn:Hsorted.
    { by apply sort_by_nil_inv in Hsorted. }
    change (hours 0) with 0. rewrite bucket_loop_diverges; [done|].
    pose proof (sort_by_sorted pc_time comms) as Hs. rewrite Hsorted in Hs.
    apply sorted_head_le_last in Hs. pose proof (midnight_le (pc_time first)).
    lia.
Qed.

Lemma network_timeline_termination_witness :
  (∃ fuel outcome, ∀ fuel', (fuel ≤ fuel')%nat →
     network_timeline fuel' sample_network ["A"; "B"] 24 = Some outcome) ∧
  (∀ fuel, network_timeline fuel sample_network ["A"; "B"] 0 = None).
Proof.
  split.
  - apply (proj1 (network_timeline_termination sample_network ["A"; "B"] 24)).
    lia.
  - refine (proj2 (network_timeline_termination sample_network ["A"; "B"] 0)
              eq_refl _ eq_refl _). discriminate.
Defined.

(** ** The loop over the entities and the ordered dictionaries *)

Lemma for_users_ok {St} (g : string → User → St → St) user_ids users :
  ∀ i s,
    (i + length users ≤ length user_ids)%nat →
    for_users (λ user_id user s, Ok (g user_id user s)) user_ids i users s
    = Ok (fold_left (λ s p, g p.1 p.2 s) (zip (drop i user_ids) users) s).
Proof.
  induction users as [|user users IH]; intros i s Hlen; simpl.
  - by destruct (drop i user_ids).
  - simpl in Hlen. unfold get_id.
    destruct (user_ids !! i) as [user_id|] eqn:Hid.
    2:{ apply lookup_ge_None in Hid. lia. }
    rewrite (drop_S _ _ _ Hid). simpl. apply IH. lia.
Qed.

Lemma elem_of_zip_lookup {A B} (l : list A) (k : list B) x y :
  (x, y) ∈ zip l k ↔ ∃ i, l !! i = Some x ∧ k !! i = Some y.
Proof.
  rewrite elem_of_lookup_zip_with. split.
  - intros (i & x' & y' & [= -> ->] & Hx & Hy). eauto.
  - intros (i & Hx & Hy). exists i, x, y. eauto.
Qed.

Lemma zip_keys {A B} (l : list A) (k : list B) :
  (length k ≤ length l)%nat → (zip l k).*1 = take (length k) l.
Proof.
  revert l. induction k as [|y k IH]; intros [|x l] Hlen; simpl in *;
    [done|done|lia|].
  f_equal. apply IH. lia.
Qed.

Lemma dict_set_fresh {K V} `{EqDecision K} (k : K) (v : V) (d : odict K V) :
  k ∉ d.*1 → dict_set k v d = d ++ [(k, v)].
Proof.
  induction d as [|[k' v'] d IH]; simpl; [done|].
  rewrite not_elem_of_cons. intros [Hne Hnotin].
  destruct (decide (k = k')); [done|]. by rewrite IH.
Qed.

(** Filling a dictionary under pairwise different keys appends the entries
    in order. *)
Lemma fold_dict_set_fresh {K V W} `{EqDecision K} (f : W → V)
  (ps : list (K * W)) :
  ∀ d : odict K V,
    NoDup (d.*1 ++ ps.*1) →
    fold_left (λ d p, dict_set p.1 (f p.2) d) ps d
    = d ++ ((λ p, (p.1, f p.2)) <$> ps).
Proof.
  induction ps as [|[k w] ps IH]; intros d Hnd; simpl.
  - by rewrite app_nil_r.
  - simpl in Hnd. rewrite dict_set_fresh.
    2:{ apply NoDup_app in Hnd as (_ & Hdisj & _). intros Hin.
        apply (Hdisj k Hin). left. }
    rewrite IH.
    + by rewrite <- app_assoc.
    + rewrite fmap_app. simpl. rewrite <- app_assoc. simpl.
      by rewrite <- Permutation_middle in Hnd |- *.
Qed.

(** ** identify_bridges *)

Lemma elem_of_others_contacts user_contacts user_id z :
  z ∈ others_contacts user_contacts user_id ↔
  ∃ other, other ∈ user_contacts ∧ other.1 ≠ user_id ∧ z ∈ other.2.
Proof.
  unfold others_contacts.
  assert (∀ acc : gset (option string),
    z ∈ fold_left (λ acc kv, if decide (kv.1 ≠ user_id) then acc ∪ kv.2 else acc)
          user_contacts acc
    ↔ z ∈ acc ∨ ∃ other, other ∈ user_contacts ∧ other.1 ≠ user_id ∧ z ∈ other.2)
    as Hgen.
  { induction user_contacts as [|kv uc IH]; intros acc; simpl.
    - split; [by left|]. intros [H|(o & H & _)]; [done|].
      by apply elem_of_nil in H.
    - rewrite IH. clear IH. split.
      + intros [Hacc|(o & Ho & Hne & Hz)].
        * destruct (decide (kv.1 ≠ user_id)) as [Hne|Heq]; [|by left].
          apply elem_of_union in Hacc as [Hacc|Hkv]; [by left|].
          right. exists kv. split; [left|done].
        * right. exists o. split; [by right|done].
      + intros [Hacc|(o & Ho & Hne & Hz)].
        * left. destruct (decide (kv.1 ≠ user_id)); [|done].
          apply elem_of_union. by left.
        * apply elem_of_cons in Ho as [->|Ho].
          -- left. destruct (decide (kv.1 ≠ user_id)); [|done].
             apply elem_of_union. by right.
          -- right. exists o. done. }
  rewrite Hgen. split; [|by right].
  intros [H|H]; [|done]. by apply not_elem_of_empty in H.
Qed.

Lemma elem_of_bridge_of user_contacts entry b :
  b ∈ bridge_of user_contacts entry →
  bridge_user_id b = entry.1 ∧
  ∀ z, z ∈ exclusive_contacts b ↔
       z ∈ entry.2 ∧ (z ∉ others_contacts user_contacts (entry.1)) ∧
       z ≠ Some entry.1.
Proof.
  unfold bridge_of. case_bool_decide; [by intros ?%elem_of_nil|].
  intros ->%list_elem_of_singleton. simpl. split; [done|].
  intros z. rewrite elem_of_elements, !elem_of_difference, elem_of_singleton.
  tauto.
Qed.

Lemma bridge_of_exclusive user_contacts entry z :
  z ∈ entry.2 → z ∉ others_contacts user_contacts (entry.1) →
  z ≠ Some entry.1 →
  ∃ b, b ∈ bridge_of user_contacts entry ∧ bridge_user_id b = entry.1 ∧
       z ∈ exclusive_contacts b.
Proof.
  intros Hin Hothers Hself. unfold bridge_of.
  assert (z ∈ (entry.2 ∖ others_contacts user_contacts entry.1)
              ∖ {[Some entry.1]}) as Hex.
  { rewrite !elem_of_difference, elem_of_singleton. done. }
  case_bool_decide as Hempty.
  - rewrite Hempty in Hex. by apply not_elem_of_empty in Hex.
  - eexists. split; [apply list_elem_of_here|]. simpl. split; [done|].
    by apply elem_of_elements.
Qed.

(** The dictionary of in-network contacts, one entry per entity, when the
    identifiers are pairwise different. *)
Lemma identify_bridges_unfold users user_ids :
  (length users ≤ length user_ids)%nat → NoDup user_ids →
  identify_bridges users user_ids =
  let user_contacts :=
    (λ p, (p.1, contact_set p.2 ∩ id_set user_ids)) <$> zip user_ids users in
  Ok (sort_by_desc (λ b, Z.of_nat (exclusive_count b))
        (user_contacts ≫= bridge_of user_contacts)).
Proof.
  intros Hlen Hnd. unfold identify_bridges.
  rewrite (for_users_ok (λ user_id user uc,
             dict_set user_id (contact_set user ∩ id_set user_ids) uc))
    by (simpl; lia).
  rewrite drop_0.
  rewrite (fold_dict_set_fresh (λ user, contact_set user ∩ id_set user_ids)).
  - done.
  - simpl. rewrite zip_keys by done.
    eapply sublist_NoDup; [done|apply sublist_take].
Qed.

Lemma elem_of_in_network_contacts users user_ids entry :
  entry ∈ ((λ p, (p.1, contact_set p.2 ∩ id_set user_ids))
             <$> zip user_ids users) ↔
  ∃ i user, user_ids !! i = Some entry.1 ∧ users !! i = Some user ∧
            entry.2 = contact_set user ∩ id_set user_ids.
Proof.
  rewrite list_elem_of_fmap. split.
  - intros ([x user] & -> & Hin). apply elem_of_zip_lookup in Hin as (i & ? & ?).
    exists i, user. done.
  - intros (i & user & Hid & Hu & Hcs). exists (entry.1, user).
    split; [destruct entry; simpl in *; by subst|].
    apply elem_of_zip_lookup. eauto.
Qed.

Example identify_bridges_sample :
  identify_bridges sample_entities ["A"; "B"; "C"] =
  Ok [ {| bridge_user_id := "B"; exclusive_contacts := [Some "C"];
          exclusive_count := 1; bridge_total_contacts := 1 |};
       {| bridge_user_id := "C"; exclusive_contacts := [Some "B"];
          exclusive_count := 1; bridge_total_contacts := 1 |} ].
Proof. vm_compute. reflexivity. Qed.

(** C2, as the code has it: the bridge analysis only looks at contacts that
    are themselves modeled entities. When X is the only entity in contact
    with Z, and Z is a modeled entity other than X, then Z is listed among
    X's exclusive contacts and under no other entity's; a contact that is not
    a modeled entity is listed under nobody's exclusive contacts. *)
Theorem identify_bridges_in_network users user_ids :
  (length users ≤ length user_ids)%nat → NoDup user_ids →
  ∃ bridges,
    identify_bridges users user_ids = Ok bridges ∧
    (∀ i x user z,
       users !! i = Some user → user_ids !! i = Some x →
       z ∈ contact_set user → z ∈ id_set user_ids → z ≠ Some x →
       (∀ j user', j ≠ i → users !! j = Some user' → z ∉ contact_set user') →
       lists_exclusively bridges x z) ∧
    (∀ b z, b ∈ bridges → z ∉ id_set user_ids → z ∉ exclusive_contacts b).
Proof.
  intros Hlen Hnd. rewrite identify_bridges_unfold by done. cbv zeta.
  set (uc := (λ p, (p.1, contact_set p.2 ∩ id_set user_ids))
               <$> zip user_ids users).
  eexists. split; [reflexivity|].
  unfold sort_by_desc. split.
  - intros i x user z Hu Hx Hz Hmodeled Hself Honly.
    assert (∀ entry, entry ∈ uc → entry.1 ≠ x → z ∉ entry.2) as Hothers.
    { intros entry (j & user' & Hj & Hu' & Hcs)%elem_of_in_network_contacts Hne.
      rewrite Hcs, elem_of_intersection. intros [Hin _].
      apply (Honly j user'); [|done..]. intros ->. congruence. }
    split.
    + destruct (bridge_of_exclusive uc (x, contact_set user ∩ id_set user_ids) z)
        as (b & Hb & Hid & Hzb); simpl.
      * by apply elem_of_intersection.
      * rewrite elem_of_others_contacts. intros (other & Hin & Hne & Hzo).
        by apply (Hothers other).
      * done.
      * exists b. split; [|done]. apply elem_of_sort_by, list_elem_of_bind.
        eexists. split; [exact Hb|].
        apply elem_of_in_network_contacts. exists i, user. done.
    + intros b Hb Hne Hzb.
      apply elem_of_sort_by, list_elem_of_bind in Hb as (entry & Hb & Hentry).
      apply elem_of_bridge_of in Hb as [Hid Hex].
      apply Hex in Hzb as (Hzin & _ & _).
      apply (Hothers entry); [done| |done]. by rewrite <- Hid.
  - intros b z Hb Hext Hzb.
    apply elem_of_sort_by, list_elem_of_bind in Hb as (entry & Hb & Hentry).
    apply elem_of_bridge_of in Hb as [_ Hex].
    apply Hex in Hzb as (Hzin & _ & _).
    apply elem_of_in_network_contacts in Hentry as (j & user' & _ & _ & Hcs).
    rewrite Hcs, elem_of_intersection in Hzin. by destruct Hzin.
Qed.

Lemma identify_bridges_in_network_witness :
  ∃ bridges,
    identify_bridges sample_entities ["A"; "B"; "C"] = Ok bridges ∧
    lists_exclusively bridges "B" (Some "C") ∧
    (∀ b, b ∈ bridges → Some "Z" ∉ exclusive_contacts b).
Proof.
  destruct (identify_bridges_in_network sample_entities ["A"; "B"; "C"])
    as (bridges & Heq & Hin & Hout).
  - simpl. lia.
  - compute_done.
  - exists bridges. split; [exact Heq|]. split.
    + apply (Hin 1%nat "B" (caller (call_to 2000 "C")) (Some "C")).
      * reflexivity.
      * reflexivity.
      * compute_done.
      * compute_done.
      * discriminate.
      * intros [|[|[|j]]] user' Hj Hu; simpl in Hu; try done;
          injection Hu as <-; compute_done.
    + intros b Hb. apply Hout; [exact Hb|].
      compute_done.
Defined.

(** C2 as stated fails: A is the only entity in contact with the outsider Z,
    and Z is not listed among A's exclusive contacts (A is not reported as a
    bridge at all). *)
Lemma identify_bridges_external_counterexample :
  (∀ j user', j ≠ 0%nat → sample_entities !! j = Some user' →
              Some "Z" ∉ contact_set user') ∧
  Some "Z" ∈ contact_set (caller (call_to 1000 "Z")) ∧
  (Some "Z" ∉ id_set ["A"; "B"; "C"]) ∧
  ¬ ∃ bridges,
      identify_bridges sample_entities ["A"; "B"; "C"] = Ok bridges ∧
      lists_exclusively bridges "A" (Some "Z").
Proof.
  split_and!.
  - intros [|[|[|j]]] user' Hj Hu; simpl in Hu; try done;
      injection Hu as <-; compute_done.
  - compute_done.
  - compute_done.
  - intros (bridges & Heq & (b & Hb & Hid & _) & _).
    rewrite identify_bridges_sample in Heq. injection Heq as <-.
    apply elem_of_cons in Hb as [->|Hb]; [discriminate Hid|].
    apply list_elem_of_singleton in Hb as ->. discriminate Hid.
Qed.

(** ** The network aggregators and records of unknown correspondent *)

Lemma dict_get_set_eq {K V} `{EqDecision K} (k : K) (v : V) (d : odict K V) :
  dict_get k (dict_set k v d) = Some v.
Proof.
  induction d as [|[k' v'] d IH]; simpl.
  - by rewrite decide_True.
  - destruct (decide (k = k')) as [->|Hne]; simpl.
    + by rewrite decide_True.
    + by rewrite decide_False.
Qed.

Lemma dict_get_set_ne {K V} `{EqDecision K} (k k' : K) (v : V)
  (d : odict K V) :
  k ≠ k' → dict_get k (dict_set k' v d) = dict_get k d.
Proof.
  intros Hne. induction d as [|[k'' v''] d IH]; simpl.
  - by rewrite decide_False.
  - destruct (decide (k' = k'')) as [->|Hne']; simpl.
    + by rewrite !decide_False.
    + destruct (decide (k = k'')); done.
Qed.

Lemma dict_get_elem {K V} `{EqDecision K} (k : K) (v : V) (d : odict K V) :
  dict_get k d = Some v → (k, v) ∈ d.
Proof.
  induction d as [|[k' v'] d IH]; simpl; [done|].
  destruct (decide (k = k')) as [->|Hne].
  - intros [= ->]. left.
  - intros H. right. by apply IH.
Qed.











(** A record of unknown correspondent stops the volume matrix. *)
Lemma volume_of_records_null user_id rs :
  ∀ matrix,
    (∃ r, r ∈ rs ∧ correspondent_id r = None) →
    volume_of_records user_id rs matrix = Raise TypeError.
Proof.
  induction rs as [|r0 rs IH]; intros matrix (r & Hr & Hnull).
  - by apply elem_of_nil in Hr.
  - simpl. destruct (correspondent_id r0) as [c|] eqn:Hc; [|done]. simpl.
    apply IH. apply elem_of_cons in Hr as [->|Hr]; [congruence|eauto].
Qed.

Lemma volume_of_records_raises user_id rs e :
  ∀ matrix, volume_of_records user_id rs matrix = Raise e → e = TypeError.
Proof.
  induction rs as [|r0 rs IH]; intros matrix; simpl; [done|].
  destruct (correspondent_id r0) as [c|]; simpl.
  - apply IH.
  - by intros [= <-].
Qed.

Lemma communication_volume_matrix_null users user_ids user r :
  (length users ≤ length user_ids)%nat →
  user ∈ users → r ∈ records user → correspondent_id r = None →
  communication_volume_matrix users user_ids = Raise TypeError.
Proof.
  intros Hlen Hu Hr Hnull. unfold communication_volume_matrix.
  assert (∀ i matrix,
    (i + length users ≤ length user_ids)%nat →
    for_users (λ user_id user matrix,
                 volume_of_records user_id (records user) matrix)
      user_ids i users matrix = Raise TypeError) as Hgen.
  { clear Hlen. induction users as [|user0 users IH]; intros i matrix Hlen.
    - by apply elem_of_nil in Hu.
    - simpl in *. unfold get_id.
      destruct (user_ids !! i) as [user_id|] eqn:Hid.
      2:{ apply lookup_ge_None in Hid. lia. }
      simpl.
      destruct (volume_of_records user_id (records user0) matrix)
        as [matrix'|e] eqn:Hvol; simpl.
      + apply elem_of_cons in Hu as [->|Hu].
        * rewrite volume_of_records_null in Hvol by eauto. discriminate.
        * apply IH; [done|lia].
      + by apply volume_of_records_raises in Hvol as ->. }
  rewrite Hgen by (simpl; lia). done.
Qed.

(** What the four aggregations return on the sample with one text of
    unknown correspondent. *)
Example aggregations_sample_anonymous :
  build_communication_matrix sample_anonymous ["A"; "B"]
  = Ok [ ((Some "A", Some "B"), 1%nat); ((Some "A", None), 1%nat);
         ((Some "B", Some "A"), 1%nat) ] ∧
  degree_centrality sample_anonymous ["A"; "B"]
  = Ok [ ("A", {| total_contacts := 2; in_network_contacts := 1;
                  out_of_network_contacts := 1;
                  in_network_list := [Some "B"];
                  out_of_network_list := [None] |});
         ("B", {| total_contacts := 1; in_network_contacts := 1;
                  out_of_network_contacts := 0;
                  in_network_list := [Some "A"];
                  out_of_network_list := [] |}) ] ∧
  shared_contacts sample_anonymous ["A"; "B"] 1
  = Ok [ (Some "B", ["A"]); (None, ["A"]); (Some "A", ["B"]) ] ∧
  communication_volume_matrix sample_anonymous ["A"; "B"] = Raise TypeError.
Proof. vm_compute. done. Qed.




(** * Further properties of the two modules *)

(** ** Sorted lists *)

Lemma sorted_lookup_le {A} (key : A → Z) l :
  StronglySorted (λ a b, key a ≤ key b) l →
  ∀ i j x y, (i < j)%nat → l !! i = Some x → l !! j = Some y →
             key x ≤ key y.
Proof.
  induction 1 as [|x0 l Hsorted IH Hall]; intros i j x y Hij Hi Hj.
  - by rewrite lookup_nil in Hi.
  - destruct j as [|j]; [lia|]. simpl in Hj. destruct i as [|i]; simpl in Hi.
    + injection Hi as <-. rewrite Forall_forall in Hall. apply Hall.
      by eapply list_elem_of_lookup_2.
    + apply (IH i j); [lia|done..].
Qed.

(** ** antenna_overlap, continued *)

(** X1: Every overlap reports the absolute time difference of its two records,
    which lies within the window, at a tag that is not empty; and every pair
    of records with the same non-empty tag, no further apart than the window,
    is reported. *)
Theorem antenna_overlap_sound_complete user_a user_b w :
  (∀ o, o ∈ antenna_overlap user_a user_b w →
        delta_seconds o = Z.abs (user_a_time o - user_b_time o) ∧
        0 ≤ delta_seconds o ≤ w * 60 ∧ antenna_id o ≠ "" ∧
        ∃ rec_a rec_b,
          rec_a ∈ records user_a ∧ rec_b ∈ records user_b ∧
          antenna (position rec_a) = Some (antenna_id o) ∧
          antenna (position rec_b) = Some (antenna_id o) ∧
          datetime rec_a = user_a_time o ∧ datetime rec_b = user_b_time o) ∧
  (∀ rec_a rec_b ant,
     rec_a ∈ records user_a → rec_b ∈ records user_b →
     antenna (position rec_a) = Some ant →
     antenna (position rec_b) = Some ant → ant ≠ "" →
     Z.abs (datetime rec_a - datetime rec_b) ≤ w * 60 →
     ∃ o, o ∈ antenna_overlap user_a user_b w ∧ antenna_id o = ant ∧
          user_a_time o = datetime rec_a ∧ user_b_time o = datetime rec_b).
Proof.
  split.
  - intros o (rec_a & rec_b & ant & Ha & Hb & Ha_ant & Hb_ant & Hne & Hle & ->)
      %elem_of_antenna_overlap. simpl.
    split_and!; [done|lia|done|done|]. exists rec_a, rec_b. done.
  - intros rec_a rec_b ant Ha Hb Ha_ant Hb_ant Hne Hle.
    eexists. split; [apply elem_of_antenna_overlap|].
    + exists rec_a, rec_b, ant. done.
    + done.
Qed.

Lemma antenna_overlap_sound_complete_witness :
  delta_seconds (mkOverlap "T1" 36000 36300 300 None) = Z.abs (36000 - 36300).
Proof.
  refine (proj1 (proj1 (antenna_overlap_sound_complete sample_a sample_b 30)
                   (mkOverlap "T1" 36000 36300 300 None) _)).
  rewrite antenna_overlap_sample. apply list_elem_of_here.
Defined.

(** X2: The overlaps come in ascending order of the A-side time. *)
Theorem antenna_overlap_sorted user_a user_b w i j o1 o2 :
  (i < j)%nat →
  antenna_overlap user_a user_b w !! i = Some o1 →
  antenna_overlap user_a user_b w !! j = Some o2 →
  user_a_time o1 ≤ user_a_time o2.
Proof.
  unfold antenna_overlap. apply sorted_lookup_le, sort_by_sorted.
Qed.

(** X3: A negative window matches nothing. *)
Theorem antenna_overlap_negative_window user_a user_b w :
  w < 0 → antenna_overlap user_a user_b w = [].
Proof.
  intros Hw. destruct (antenna_overlap user_a user_b w) as [|o os] eqn:Hres;
    [done|].
  assert (o ∈ antenna_overlap user_a user_b w) as Ho by (rewrite Hres; left).
  apply elem_of_antenna_overlap in Ho as (? & ? & ? & _ & _ & _ & _ & _ & Hle & _).
  lia.
Qed.

Lemma antenna_overlap_negative_window_witness :
  antenna_overlap sample_a sample_b (-1) = [].
Proof. apply antenna_overlap_negative_window. lia. Defined.

Lemma antenna_overlap_sorted_witness :
  user_a_time (mkOverlap "T1" 36000 36300 300 None)
  ≤ user_a_time (mkOverlap "T1" 38400 36300 2100 None).
Proof.
  apply (antenna_overlap_sorted sample_a sample_b 60 0 1).
  - lia.
  - vm_compute. reflexivity.
  - vm_compute. reflexivity.
Defined.

(** ** meeting_detection *)

Lemma meeting_detection_fmap user_a user_b cw gw :
  meeting_detection user_a user_b cw gw
  = meeting_of user_a (gw * 60) <$> antenna_overlap user_a user_b cw.
Proof.
  unfold meeting_detection. by destruct (antenna_overlap user_a user_b cw).
Qed.

Lemma elem_of_meeting_detection user_a user_b cw gw m :
  m ∈ meeting_detection user_a user_b cw gw →
  ∃ rec_a, rec_a ∈ records user_a ∧ m_time m = datetime rec_a ∧
    activity_around m
    = length (filter (λ r, Z.abs (datetime r - datetime rec_a) < gw * 60)
                     (records user_a)) ∧
    confidence m = confidence_of (activity_around m).
Proof.
  rewrite meeting_detection_fmap, list_elem_of_fmap. intros (o & -> & Ho).
  apply elem_of_antenna_overlap in Ho
    as (rec_a & rec_b & ant & Ha & _ & _ & _ & _ & _ & ->).
  exists rec_a. done.
Qed.

Lemma filter_none {A} (P : A → Prop) `{∀ x, Decision (P x)} (l : list A) :
  (∀ x, x ∈ l → ¬ P x) → filter P l = [].
Proof.
  induction l as [|x l IH]; intros Hl; [done|].
  rewrite filter_cons, decide_False by (apply Hl; left).
  apply IH. intros y Hy. apply Hl. by right.
Qed.

(** X4: There is one meeting per co-location, in the same order and with the
    same tag, time, coordinate and time difference, whatever the gap
    threshold. *)
Theorem meeting_detection_follows_overlaps user_a user_b cw gw :
  (λ m, (m_antenna_id m, m_time m, m_coordinates m, m_delta_seconds m))
    <$> meeting_detection user_a user_b cw gw
  = (λ o, (antenna_id o, user_a_time o, coordinates o, delta_seconds o))
    <$> antenna_overlap user_a user_b cw.
Proof.
  rewrite meeting_detection_fmap, <- list_fmap_compose. done.
Qed.

(** X5: The activity around a meeting counts the co-location record itself: it
    is at least 1 as soon as the gap threshold is positive, and never more
    than the number of records of A; with a gap threshold that is not
    positive the activity is 0 and the confidence is always high. *)
Theorem meeting_detection_activity user_a user_b cw gw m :
  m ∈ meeting_detection user_a user_b cw gw →
  (activity_around m ≤ length (records user_a))%nat ∧
  (0 < gw → (1 ≤ activity_around m)%nat) ∧
  (gw ≤ 0 → activity_around m = 0%nat ∧ confidence m = High).
Proof.
  intros (rec_a & Ha & Htime & Hact & Hconf)%elem_of_meeting_detection.
  rewrite Hconf, Hact. split_and!.
  - apply length_filter.
  - intros Hgw.
    assert (rec_a ∈ filter (λ r, Z.abs (datetime r - datetime rec_a) < gw * 60)
                           (records user_a)) as Hin.
    { apply list_elem_of_filter. split; [lia|done]. }
    destruct (filter _ (records user_a)); [by apply elem_of_nil in Hin|].
    simpl. lia.
  - intros Hgw.
    assert (filter (λ r, Z.abs (datetime r - datetime rec_a) < gw * 60)
                   (records user_a) = []) as ->; [|done].
    apply filter_none. intros r _. lia.
Qed.

Lemma meeting_detection_activity_witness :
  (activity_around (meeting_of sample_a (60 * 60)
                      (mkOverlap "T1" 36000 36300 300 None))
   ≤ length (records sample_a))%nat.
Proof.
  refine (proj1 (meeting_detection_activity sample_a sample_b 30 60 _ _)).
  rewrite meeting_detection_fmap, antenna_overlap_sample.
  apply list_elem_of_here.
Defined.

Lemma filter_length_mono {A} (P Q : A → Prop) `{∀ x, Decision (P x)}
  `{∀ x, Decision (Q x)} (l : list A) :
  (∀ x, P x → Q x) → (length (filter P l) ≤ length (filter Q l))%nat.
Proof.
  intros HPQ. induction l as [|x l IH]; [done|].
  rewrite !filter_cons. destruct (decide (P x)) as [HP|HP].
  - rewrite decide_True by auto. simpl. lia.
  - destruct (decide (Q x)); simpl; lia.
Qed.

(** X6: Widening the gap threshold can only raise the activity counted around
    each meeting. *)
Theorem meeting_detection_gap_monotone user_a user_b cw g1 g2 k m1 m2 :
  g1 ≤ g2 →
  meeting_detection user_a user_b cw g1 !! k = Some m1 →
  meeting_detection user_a user_b cw g2 !! k = Some m2 →
  m_time m1 = m_time m2 ∧ (activity_around m1 ≤ activity_around m2)%nat.
Proof.
  intros Hg. rewrite !meeting_detection_fmap, !list_lookup_fmap.
  destruct (antenna_overlap user_a user_b cw !! k) as [o|]; [|done]. simpl.
  intros [= <-] [= <-]. simpl. split; [done|].
  apply filter_length_mono. intros r. lia.
Qed.

Lemma meeting_detection_gap_monotone_witness :
  (activity_around (meeting_of sample_a (10 * 60)
                      (mkOverlap "T1" 36000 36300 300 None))
   ≤ activity_around (meeting_of sample_a (30 * 60)
                        (mkOverlap "T1" 36000 36300 300 None)))%nat.
Proof.
  refine (proj2 (meeting_detection_gap_monotone sample_a sample_b 30 10 30 0
                   _ _ _ _ _)).
  - lia.
  - vm_compute. reflexivity.
  - vm_compute. reflexivity.
Defined.

(** ** proximity_to_location *)

Lemma presence_of_Some target td w r p :
  presence_of target td w r = Some p ↔
  antenna (position r) = Some target ∧
  (∀ t, td = Some t → Z.abs (datetime r - t) ≤ w * 60) ∧
  p = {| p_datetime := datetime r; p_antenna_id := target; at_target := true;
         p_interaction := interaction r;
         p_correspondent_id := correspondent_id r |}.
Proof.
  unfold presence_of. destruct (antenna (position r)) as [a|].
  2:{ split; [done|]. by intros [? _]. }
  destruct (decide (a = target)) as [->|Hne].
  2:{ split; [done|]. intros [[= ?] _]. done. }
  destruct td as [t|].
  - destruct (Z.leb_spec (Z.abs (datetime r - t)) (w * 60)) as [Hle|Hgt].
    + split.
      * intros [= <-]. split_and!; [done| |done]. by intros ? [= <-].
      * intros (_ & _ & ->). done.
    + split; [done|]. intros (_ & Hle & _). specialize (Hle t eq_refl). lia.
  - split.
    + intros [= <-]. done.
    + intros (_ & _ & ->). done.
Qed.

Lemma elem_of_proximity_to_location user target td w p :
  p ∈ proximity_to_location user target td w ↔
  ∃ r, r ∈ records user ∧ presence_of target td w r = Some p.
Proof.
  unfold proximity_to_location. by rewrite elem_of_sort_by, list_elem_of_omap.
Qed.

(** X7: Every presence reported by [proximity_to_location] is a record of the
    user at the target antenna, within the window of the target time when
    one is given; and every such record is reported. *)
Theorem proximity_to_location_sound_complete user target td w :
  (∀ p, p ∈ proximity_to_location user target td w →
        p_antenna_id p = target ∧ at_target p = true ∧
        (∀ t, td = Some t → Z.abs (p_datetime p - t) ≤ w * 60) ∧
        ∃ r, r ∈ records user ∧ antenna (position r) = Some target ∧
             datetime r = p_datetime p ∧ interaction r = p_interaction p ∧
             correspondent_id r = p_correspondent_id p) ∧
  (∀ r, r ∈ records user → antenna (position r) = Some target →
        (∀ t, td = Some t → Z.abs (datetime r - t) ≤ w * 60) →
        ∃ p, p ∈ proximity_to_location user target td w ∧
             p_datetime p = datetime r ∧
             p_correspondent_id p = correspondent_id r).
Proof.
  split.
  - intros p (r & Hr & (Hant & Hwin & ->)%presence_of_Some)
      %elem_of_proximity_to_location. simpl.
    split_and!; [done|done|done|]. exists r. done.
  - intros r Hr Hant Hwin. eexists. split.
    + apply elem_of_proximity_to_location. exists r. split; [done|].
      apply presence_of_Some. done.
    + done.
Qed.

Lemma proximity_to_location_sound_complete_witness :
  ∃ p, p ∈ proximity_to_location sample_a "T1" (Some 36300) 30 ∧
       p_datetime p = 36000 ∧ p_correspondent_id p = Some "555-0100".
Proof.
  refine (proj2 (proximity_to_location_sound_complete sample_a "T1"
                   (Some 36300) 30) (located_record 36000 "T1") _ eq_refl _).
  - left.
  - intros t [= <-]. simpl. lia.
Defined.

(** X8: The presences come in ascending order of time. *)
Theorem proximity_to_location_sorted user target td w i j p1 p2 :
  (i < j)%nat →
  proximity_to_location user target td w !! i = Some p1 →
  proximity_to_location user target td w !! j = Some p2 →
  p_datetime p1 ≤ p_datetime p2.
Proof.
  unfold proximity_to_location. apply sorted_lookup_le, sort_by_sorted.
Qed.

Lemma proximity_to_location_sorted_witness :
  p_datetime (mkPresence 36000 "T1" true Call (Some "555-0100"))
  ≤ p_datetime (mkPresence 38400 "T1" true Call (Some "555-0100")).
Proof.
  apply (proximity_to_location_sorted sample_a "T1" None 60 0 1).
  - lia.
  - vm_compute. reflexivity.
  - vm_compute. reflexivity.
Defined.

Lemma omap_length_filter {A B} (f : A → option B) (P : A → Prop)
  `{∀ x, Decision (P x)} (l : list A) :
  (∀ x, is_Some (f x) ↔ P x) → length (omap f l) = length (filter P l).
Proof.
  intros Hf. induction l as [|x l IH]; [done|].
  rewrite filter_cons. simpl. destruct (f x) as [y|] eqn:Hfx.
  - rewrite decide_True by (apply Hf; eauto). simpl. f_equal. exact IH.
  - rewrite decide_False; [exact IH|]. intros HP%Hf. rewrite Hfx in HP.
    by destruct HP.
Qed.

(** X9: Without a target time there is one presence for each record at the
    target antenna, whatever the window. *)
Theorem proximity_to_location_all_records user target w :
  length (proximity_to_location user target None w)
  = length (filter (λ r, antenna (position r) = Some target) (records user)).
Proof.
  unfold proximity_to_location. rewrite sort_by_perm.
  apply omap_length_filter. intros r. split.
  - intros [p (Hant & _)%presence_of_Some]. done.
  - intros Hant. eexists. apply presence_of_Some. done.
Qed.

(** X10: A presence found within a window around a target time is also found
    with any wider window, and without a target time. *)
Theorem proximity_to_location_monotone user target t w1 w2 w3 p :
  w1 ≤ w2 →
  p ∈ proximity_to_location user target (Some t) w1 →
  p ∈ proximity_to_location user target (Some t) w2 ∧
  p ∈ proximity_to_location user target None w3.
Proof.
  intros Hw. rewrite !elem_of_proximity_to_location.
  intros (r & Hr & (Hant & Hwin & ->)%presence_of_Some).
  specialize (Hwin t eq_refl).
  split; exists r; (split; [done|]); apply presence_of_Some;
    (split_and!; [done| |done]).
  - intros ? [= <-]. lia.
  - done.
Qed.

Lemma proximity_to_location_monotone_witness :
  mkPresence 36000 "T1" true Call (Some "555-0100")
  ∈ proximity_to_location sample_a "T1" (Some 36300) 45.
Proof.
  refine (proj1 (proximity_to_location_monotone sample_a "T1" 36300 30 45 0
                   _ _ _)).
  - lia.
  - vm_compute. apply list_elem_of_here.
Defined.

(** ** get_transitions and travel_pattern_match *)

Lemma elem_of_located rs a r :
  (a, r) ∈ located rs ↔ r ∈ rs ∧ located_tag r = Some a.
Proof.
  unfold located. rewrite list_elem_of_omap. split.
  - intros (r' & Hr & Heq). destruct (located_tag r') as [a'|] eqn:Htag;
      [|done]. simpl in Heq. injection Heq as -> ->. done.
  - intros [Hr Htag]. exists r. rewrite Htag. done.
Qed.

Lemma elem_of_tail_elem {A} (l : list A) x : x ∈ tail l → x ∈ l.
Proof. destruct l; simpl; [done|]. by right. Qed.

(** A transition joins two members of the list with different tags; its time
    is that of a member of the tail. *)
Lemma elem_of_transitions_of l tr :
  tr ∈ transitions_of l →
  ∃ prev curr, prev ∈ l ∧ curr ∈ tail l ∧ prev.1 ≠ curr.1 ∧
    tr = {| t_from := prev.1; t_to := curr.1; t_time := datetime curr.2 |}.
Proof.
  induction l as [|prev l IH]; [by intros ?%elem_of_nil|].
  destruct l as [|curr l]; [by intros ?%elem_of_nil|].
  change (transitions_of (prev :: curr :: l))
    with ((if decide (prev.1 ≠ curr.1)
           then [ {| t_from := prev.1; t_to := curr.1;
                     t_time := datetime curr.2 |} ]
           else []) ++ transitions_of (curr :: l)).
  rewrite elem_of_app. intros [Htr|Htr].
  - destruct (decide (prev.1 ≠ curr.1)); [|by apply elem_of_nil in Htr].
    apply list_elem_of_singleton in Htr. exists prev, curr.
    split_and!; [left|left|done|done].
  - destruct (IH Htr) as (p & c & Hp & Hc & Hne & ->).
    exists p, c. split_and!; [by right|by right|done|done].
Qed.

Lemma transitions_of_sorted l :
  StronglySorted (λ p q : string * BRecord, datetime p.2 ≤ datetime q.2) l →
  StronglySorted (λ a b, t_time a ≤ t_time b) (transitions_of l).
Proof.
  induction 1 as [|prev l Hsorted IH Hall]; [constructor|].
  destruct l as [|curr l]; [constructor|].
  change (transitions_of (prev :: curr :: l))
    with ((if decide (prev.1 ≠ curr.1)
           then [ {| t_from := prev.1; t_to := curr.1;
                     t_time := datetime curr.2 |} ]
           else []) ++ transitions_of (curr :: l)).
  destruct (decide (prev.1 ≠ curr.1)); [|exact IH].
  cbn [app]. constructor; [exact IH|].
  apply Forall_forall. intros tr (p & c & _ & Hc & _ & ->)%elem_of_transitions_of.
  cbn [tail t_time] in *. apply StronglySorted_inv in Hsorted as [_ Hcurr].
  rewrite Forall_forall in Hcurr. by apply Hcurr.
Qed.

Lemma transition_ends_differ user tr :
  tr ∈ get_transitions user → t_from tr ≠ t_to tr.
Proof.
  unfold get_transitions.
  intros (p & c & _ & _ & Hne & ->)%elem_of_transitions_of. done.
Qed.

(** X11: A transition of a user goes from the tag of one of its records to the
    different tag of another, neither tag being empty, at the time of the
    second record. *)
Theorem get_transitions_change_of_antenna user tr :
  tr ∈ get_transitions user →
  t_from tr ≠ t_to tr ∧ t_from tr ≠ "" ∧ t_to tr ≠ "" ∧
  ∃ prev curr,
    prev ∈ records user ∧ curr ∈ records user ∧
    antenna (position prev) = Some (t_from tr) ∧
    antenna (position curr) = Some (t_to tr) ∧
    datetime curr = t_time tr ∧ datetime prev ≤ datetime curr.
Proof.
  unfold get_transitions. intros Htr.
  pose proof (sort_by_sorted (λ p : string * BRecord, datetime p.2)
                (located (records user))) as Hsorted.
  revert Htr Hsorted.
  generalize (elem_of_sort_by (λ p : string * BRecord, datetime p.2)
                (located (records user))).
  generalize (sort_by (λ p : string * BRecord, datetime p.2)
                (located (records user))).
  intros l Hl Htr Hsorted.
  assert (∃ prev curr, prev ∈ l ∧ curr ∈ l ∧ prev.1 ≠ curr.1 ∧
            datetime prev.2 ≤ datetime curr.2 ∧
            tr = {| t_from := prev.1; t_to := curr.1;
                    t_time := datetime curr.2 |})
    as ([a1 r1] & [a2 r2] & Hp & Hc & Hne & Hle & ->).
  { clear Hl. induction Hsorted as [|x l Hsorted IH Hall];
      [by apply elem_of_nil in Htr|].
    destruct l as [|y l]; [by apply elem_of_nil in Htr|].
    change (transitions_of (x :: y :: l))
      with ((if decide (x.1 ≠ y.1)
             then [ {| t_from := x.1; t_to := y.1; t_time := datetime y.2 |} ]
             else []) ++ transitions_of (y :: l)) in Htr.
    apply elem_of_app in Htr as [Htr|Htr].
    - destruct (decide (x.1 ≠ y.1)); [|by apply elem_of_nil in Htr].
      apply list_elem_of_singleton in Htr. exists x, y.
      apply Forall_cons in Hall as [Hxy _].
      split_and!; [left|right; left|done|done|done].
    - destruct (IH Htr) as (p & c & Hp & Hc & Hne & Hle & ->).
      exists p, c. split_and!; [by right|by right|done..]. }
  apply Hl, elem_of_located in Hp as [Hr1 [Ha1 Hne1]%located_tag_Some].
  apply Hl, elem_of_located in Hc as [Hr2 [Ha2 Hne2]%located_tag_Some].
  simpl in *. split_and!; [done..|]. exists r1, r2. done.
Qed.

Lemma get_transitions_change_of_antenna_witness :
  t_from (mkTransition "T1" "T2" 37200) ≠ t_to (mkTransition "T1" "T2" 37200).
Proof.
  refine (proj1 (get_transitions_change_of_antenna sample_a _ _)).
  rewrite get_transitions_sample. apply list_elem_of_here.
Defined.

(** X12: The transitions of a user come in ascending order of time. *)
Theorem get_transitions_sorted user i j tr1 tr2 :
  (i < j)%nat →
  get_transitions user !! i = Some tr1 →
  get_transitions user !! j = Some tr2 →
  t_time tr1 ≤ t_time tr2.
Proof.
  unfold get_transitions.
  apply sorted_lookup_le, transitions_of_sorted, sort_by_sorted.
Qed.

Lemma get_transitions_sorted_witness :
  t_time (mkTransition "T1" "T2" 37200) ≤ t_time (mkTransition "T2" "T1" 38400).
Proof.
  apply (get_transitions_sorted sample_a 0 1).
  - lia.
  - rewrite get_transitions_sample. reflexivity.
  - rewrite get_transitions_sample. reflexivity.
Defined.

Lemma elem_of_travel_pattern_match user_a user_b w k m :
  m ∈ travel_pattern_match user_a user_b w k ↔
  ∃ ta tb, ta ∈ get_transitions user_a ∧ tb ∈ get_transitions user_b ∧
    t_from ta = t_from tb ∧ t_to ta = t_to tb ∧
    Z.abs (t_time ta - t_time tb) ≤ w * 60 ∧
    m = {| from_antenna := t_from ta; to_antenna := t_to ta;
           tm_user_a_time := t_time ta; tm_user_b_time := t_time tb;
           tm_delta_seconds := Z.abs (t_time ta - t_time tb) |}.
Proof.
  unfold travel_pattern_match.
  assert (m ∈ (get_transitions user_a ≫= λ ta, get_transitions user_b ≫= λ tb,
            if bool_decide (t_from ta = t_from tb ∧ t_to ta = t_to tb)
            then
              let delta := Z.abs (t_time ta - t_time tb) in
              if delta <=? w * 60
              then [ {| from_antenna := t_from ta; to_antenna := t_to ta;
                        tm_user_a_time := t_time ta;
                        tm_user_b_time := t_time tb;
                        tm_delta_seconds := delta |} ]
              else []
            else [])
          ↔ ∃ ta tb, ta ∈ get_transitions user_a ∧ tb ∈ get_transitions user_b ∧
              t_from ta = t_from tb ∧ t_to ta = t_to tb ∧
              Z.abs (t_time ta - t_time tb) ≤ w * 60 ∧
              m = {| from_antenna := t_from ta; to_antenna := t_to ta;
                     tm_user_a_time := t_time ta; tm_user_b_time := t_time tb;
                     tm_delta_seconds := Z.abs (t_time ta - t_time tb) |})
    as Hbind.
  { rewrite list_elem_of_bind. split.
    - intros (ta & Hm & Hta). apply list_elem_of_bind in Hm as (tb & Hm & Htb).
      case_bool_decide as Heq; [|by apply elem_of_nil in Hm].
      destruct Heq as [Hfrom Hto]. cbv zeta in Hm.
      destruct (Z.leb_spec (Z.abs (t_time ta - t_time tb)) (w * 60));
        [|by apply elem_of_nil in Hm].
      apply list_elem_of_singleton in Hm. exists ta, tb. done.
    - intros (ta & tb & Hta & Htb & Hfrom & Hto & Hle & ->).
      exists ta. split; [|done]. apply list_elem_of_bind. exists tb.
      split; [|done]. rewrite bool_decide_eq_true_2 by done. cbv zeta.
      destruct (Z.leb_spec (Z.abs (t_time ta - t_time tb)) (w * 60)); [|lia].
      by apply list_elem_of_singleton. }
  destruct (get_transitions user_a) as [|ta0 tas] eqn:Ha.
  { split; [by intros ?%elem_of_nil|].
    intros (ta & _ & Hta & _). by apply elem_of_nil in Hta. }
  destruct (get_transitions user_b) as [|tb0 tbs] eqn:Hb.
  { split; [by intros ?%elem_of_nil|].
    intros (_ & tb & _ & Htb & _). by apply elem_of_nil in Htb. }
  exact Hbind.
Qed.

Example travel_pattern_match_sample :
  travel_pattern_match sample_a sample_follower 60 2
  = [ {| from_antenna := "T1"; to_antenna := "T2"; tm_user_a_time := 37200;
         tm_user_b_time := 37320; tm_delta_seconds := 120 |} ].
Proof. vm_compute. reflexivity. Qed.

(** X13: Every match joins a transition of A and a transition of B between the
    same two different antennas; its delta is the absolute difference of the
    two arrival times and lies within the window. *)
Theorem travel_pattern_match_sound user_a user_b w k m :
  m ∈ travel_pattern_match user_a user_b w k →
  from_antenna m ≠ to_antenna m ∧
  tm_delta_seconds m = Z.abs (tm_user_a_time m - tm_user_b_time m) ∧
  0 ≤ tm_delta_seconds m ≤ w * 60 ∧
  mkTransition (from_antenna m) (to_antenna m) (tm_user_a_time m)
    ∈ get_transitions user_a ∧
  mkTransition (from_antenna m) (to_antenna m) (tm_user_b_time m)
    ∈ get_transitions user_b.
Proof.
  intros (ta & tb & Hta & Htb & Hfrom & Hto & Hle & ->)
    %elem_of_travel_pattern_match. simpl.
  pose proof (transition_ends_differ user_a ta Hta) as Hne.
  split_and!; [done|done|lia|lia| |].
  - by destruct ta.
  - rewrite Hfrom, Hto. by destruct tb.
Qed.

Lemma travel_pattern_match_sound_witness :
  from_antenna (mkTransitionMatch "T1" "T2" 37200 37320 120)
  ≠ to_antenna (mkTransitionMatch "T1" "T2" 37200 37320 120).
Proof.
  refine (proj1 (travel_pattern_match_sound sample_a sample_follower 60 2 _ _)).
  rewrite travel_pattern_match_sample. apply list_elem_of_here.
Defined.

(** X14: Matching A against B and B against A gives the same matches with the
    two arrival times swapped. *)
Theorem travel_pattern_match_symmetry user_a user_b w k k' f t ta tb d :
  mkTransitionMatch f t ta tb d ∈ travel_pattern_match user_a user_b w k ↔
  mkTransitionMatch f t tb ta d ∈ travel_pattern_match user_b user_a w k'.
Proof.
  assert (∀ ua ub k1 k2 t1 t2,
    mkTransitionMatch f t t1 t2 d ∈ travel_pattern_match ua ub w k1 →
    mkTransitionMatch f t t2 t1 d ∈ travel_pattern_match ub ua w k2) as Hdir.
  { intros ua ub k1 k2 t1 t2.
    intros (tra & trb & Hta & Htb & Hfrom & Hto & Hle & Heq)
      %elem_of_travel_pattern_match.
    injection Heq as -> -> -> -> ->.
    apply elem_of_travel_pattern_match. exists trb, tra.
    assert (Z.abs (t_time trb - t_time tra) = Z.abs (t_time tra - t_time trb))
      as Habs by lia.
    split_and!; [done|done|done|done|lia|]. rewrite Habs. congruence. }
  split; apply Hdir.
Qed.

(** X15: Widening the window only adds matches. *)
Theorem travel_pattern_match_monotone user_a user_b w1 w2 k m :
  w1 ≤ w2 →
  m ∈ travel_pattern_match user_a user_b w1 k →
  m ∈ travel_pattern_match user_a user_b w2 k.
Proof.
  intros Hw. rewrite !elem_of_travel_pattern_match.
  intros (ta & tb & Hta & Htb & Hfrom & Hto & Hle & ->).
  exists ta, tb. split_and!; [done..|lia|done].
Qed.

Lemma travel_pattern_match_monotone_witness :
  mkTransitionMatch "T1" "T2" 37200 37320 120
  ∈ travel_pattern_match sample_a sample_follower 90 2.
Proof.
  apply (travel_pattern_match_monotone sample_a sample_follower 60 90).
  - lia.
  - rewrite travel_pattern_match_sample. apply list_elem_of_here.
Defined.

(** X16: A user whose located records all carry the same tag has no transition,
    and is matched with nobody. *)
Theorem travel_pattern_match_single_antenna user_a user_b w k ant :
  (∀ r a, r ∈ records user_a → antenna (position r) = Some a → a ≠ "" →
          a = ant) →
  get_transitions user_a = [] ∧
  travel_pattern_match user_a user_b w k = [] ∧
  travel_pattern_match user_b user_a w k = [].
Proof.
  intros Hsame.
  assert (get_transitions user_a = []) as Hnone.
  { destruct (get_transitions user_a) as [|tr trs] eqn:Htrs; [done|].
    assert (tr ∈ get_transitions user_a) as Htr by (rewrite Htrs; left).
    unfold get_transitions in Htr.
    apply elem_of_transitions_of in Htr as ([a1 r1] & [a2 r2] & Hp & Hc & Hne & _).
    apply elem_of_tail_elem in Hc.
    apply elem_of_sort_by, elem_of_located in Hp as [Hr1 [Ha1 Hne1]%located_tag_Some].
    apply elem_of_sort_by, elem_of_located in Hc as [Hr2 [Ha2 Hne2]%located_tag_Some].
    simpl in Hne. rewrite (Hsame r1 a1), (Hsame r2 a2) in Hne; done. }
  split; [done|].
  unfold travel_pattern_match. rewrite Hnone.
  split; [done|]. by destruct (get_transitions user_b).
Qed.

Lemma travel_pattern_match_single_antenna_witness :
  travel_pattern_match sample_c sample_a 60 2 = [].
Proof.
  refine (proj1 (proj2 (travel_pattern_match_single_antenna sample_c sample_a
                          60 2 "T1" _))).
  intros r a [->|[]%elem_of_nil]%elem_of_cons [= <-] _. reflexivity.
Defined.

(** ** multi_user_colocation, continued *)

Lemma grow_cluster_absorbed w hit cluster later h :
  h ∈ grow_cluster w hit cluster later →
  h ∈ cluster ∨
  (h ∈ later ∧ h_datetime h - h_datetime hit ≤ w ∧
   h_antenna h = h_antenna hit).
Proof.
  revert cluster. induction later as [|other later IH]; intros cluster; simpl.
  - by left.
  - destruct (Z.gtb_spec (h_datetime other - h_datetime hit) w) as [Hgt|Hle];
      [by left|].
    case_bool_decide as Hsame.
    + case_bool_decide.
      * intros [Hin|(Hin & ? & ?)]%IH.
        -- apply elem_of_app in Hin as [Hin|Hin]; [by left|].
           apply list_elem_of_singleton in Hin as ->.
           right. split_and!; [left|lia|by destruct Hsame].
        -- right. split_and!; [by right|done..].
      * intros [Hin|(Hin & ? & ?)]%IH; [by left|].
        right. split_and!; [by right|done..].
    + intros [Hin|(Hin & ? & ?)]%IH; [by left|].
      right. split_and!; [by right|done..].
Qed.

Lemma grow_cluster_keeps w hit cluster later h :
  h ∈ cluster → h ∈ grow_cluster w hit cluster later.
Proof.
  revert cluster. induction later as [|other later IH]; intros cluster Hin;
    simpl; [done|].
  destruct (_ >? _); [done|].
  repeat case_bool_decide; apply IH; try done.
  apply elem_of_app. by left.
Qed.

Lemma fold_min_bounds a b l :
  ∀ acc, a ≤ acc ≤ b → Forall (λ x, a ≤ x ≤ b) l →
         a ≤ fold_left Z.min l acc ≤ acc.
Proof.
  induction l as [|x l IH]; intros acc Hacc Hall; simpl; [lia|].
  apply Forall_cons in Hall as [Hx Hall].
  specialize (IH (Z.min acc x) ltac:(lia) Hall). lia.
Qed.

Lemma fold_max_bounds a b l :
  ∀ acc, a ≤ acc ≤ b → Forall (λ x, a ≤ x ≤ b) l →
         acc ≤ fold_left Z.max l acc ≤ b.
Proof.
  induction l as [|x l IH]; intros acc Hacc Hall; simpl; [lia|].
  apply Forall_cons in Hall as [Hx Hall].
  specialize (IH (Z.max acc x) ltac:(lia) Hall). lia.
Qed.

Lemma py_min_max_bounds a b l :
  l ≠ [] → Forall (λ x, a ≤ x ≤ b) l →
  a ≤ py_min l ∧ py_min l ≤ py_max l ∧ py_max l ≤ b.
Proof.
  destruct l as [|x l]; [done|]. intros _ [Hx Hall]%Forall_cons. simpl.
  pose proof (fold_min_bounds a b l x Hx Hall).
  pose proof (fold_max_bounds a b l x Hx Hall). lia.
Qed.

(** Where a reported cluster comes from: a hit of the sorted timeline and the
    cluster grown from it, every member of which is a hit at the same antenna
    no earlier than the first and no later than the window after it. *)
Lemma find_clusters_origin w hits c :
  StronglySorted (λ a b, h_datetime a ≤ h_datetime b) hits →
  c ∈ find_clusters w hits →
  ∃ hit cluster,
    hit ∈ hits ∧ c ∈ report_cluster hit cluster ∧ hit ∈ cluster ∧
    ∀ h, h ∈ cluster →
         h ∈ hits ∧ h_antenna h = h_antenna hit ∧
         h_datetime hit ≤ h_datetime h ≤ h_datetime hit + w.
Proof.
  induction 1 as [|hit later Hsorted IH Hall]; simpl.
  - by intros ?%elem_of_nil.
  - rewrite elem_of_app. intros [Hc|Hc].
    + exists hit, (grow_cluster w hit [hit] later).
      split_and!; [left|done|apply grow_cluster_keeps; left|].
      intros h [Hh|(Hin & Hle & Hant)]%grow_cluster_absorbed.
      * apply list_elem_of_singleton in Hh as ->.
        split_and!; [left|done|lia|].
        assert (hit ∈ grow_cluster w hit [hit] later) as Hhit
          by (apply grow_cluster_keeps; left).
        unfold report_cluster in Hc.
        destruct (Nat.leb_spec 3 (length (grow_cluster w hit [hit] later)));
          [|by apply elem_of_nil in Hc].
        destruct (Z.le_gt_cases 0 w) as [Hw|Hw]; [lia|]. exfalso.
        destruct later as [|other later']; [simpl in *; lia|].
        simpl in *. apply Forall_cons in Hall as [Hother _].
        destruct (Z.gtb_spec (h_datetime other - h_datetime hit) w);
          [simpl in *; lia|lia].
      * rewrite Forall_forall in Hall. specialize (Hall h Hin).
        split_and!; [by right|done|done|lia].
    + destruct (IH Hc) as (hit' & cluster & Hhit' & Hrep & Hin & Hcl).
      exists hit', cluster. split_and!; [by right|done|done|].
      intros h Hh. destruct (Hcl h Hh) as (? & ? & ?).
      split_and!; [by right|done|lia|lia].
Qed.

Lemma elem_of_all_hits users h :
  h ∈ all_hits users → h_antenna h ≠ "".
Proof.
  unfold all_hits. rewrite list_elem_of_join. intros (l & Hh & Hl).
  apply elem_of_lookup_imap in Hl as (i & user & -> & Hi).
  apply list_elem_of_fmap in Hh as ([a r] & -> & Hp). simpl.
  by apply elem_of_located in Hp as [_ [_ ?]%located_tag_Some].
Qed.

(** X17: Every reported cluster is at a non-empty tag and spans at most the
    window: its earliest time is not after its latest, the span is their
    difference, and the span is between 0 and the window. *)
Theorem multi_user_colocation_time_span users w c :
  c ∈ multi_user_colocation users w →
  c_antenna c ≠ "" ∧
  earliest_time c ≤ latest_time c ∧
  time_span_seconds c = latest_time c - earliest_time c ∧
  0 ≤ time_span_seconds c ≤ w * 60.
Proof.
  unfold multi_user_colocation. intros Hc%deduplicate_elem.
  apply find_clusters_origin in Hc as (hit & cluster & Hhit & Hrep & Hin & Hcl);
    [|apply sort_by_sorted].
  unfold report_cluster in Hrep. destruct (3 <=? length cluster)%nat;
    [|by apply elem_of_nil in Hrep].
  apply list_elem_of_singleton in Hrep as ->. simpl.
  destruct (py_min_max_bounds (h_datetime hit) (h_datetime hit + w * 60)
              (h_datetime <$> cluster)) as (Hmin & Hle & Hmax).
  { intros Hnil%fmap_nil_inv. subst. by apply elem_of_nil in Hin. }
  { apply Forall_forall. intros t (h & -> & Hh)%list_elem_of_fmap.
    by apply Hcl. }
  split_and!; [|done|done|lia|lia].
  apply (elem_of_all_hits users). by apply elem_of_sort_by in Hhit.
Qed.

Lemma multi_user_colocation_time_span_witness :
  0 ≤ time_span_seconds (mkCluster "T1" [0; 1; 2]%nat 3 36000 36600 600)
    ≤ 30 * 60.
Proof.
  refine (proj2 (proj2 (proj2 (multi_user_colocation_time_span
            [sample_a; sample_b; sample_c] 30 _ _)))).
  rewrite multi_user_colocation_sample. apply list_elem_of_here.
Defined.

(** X18: A negative window reports no cluster. *)
Theorem multi_user_colocation_negative_window users w :
  w < 0 → multi_user_colocation users w = [].
Proof.
  intros Hw. destruct (multi_user_colocation users w) as [|c cs] eqn:Hres;
    [done|].
  assert (c ∈ multi_user_colocation users w) as Hc by (rewrite Hres; left).
  unfold multi_user_colocation in Hc. apply deduplicate_elem in Hc.
  apply find_clusters_origin in Hc as (hit & cluster & _ & _ & Hin & Hcl);
    [|apply sort_by_sorted].
  destruct (Hcl hit Hin) as (_ & _ & ?). lia.
Qed.

Lemma multi_user_colocation_negative_window_witness :
  multi_user_colocation [sample_a; sample_b; sample_c] (-5) = [].
Proof. apply multi_user_colocation_negative_window. lia. Defined.

Lemma find_clusters_reported w hits c :
  c ∈ find_clusters w hits →
  ∃ hit cluster, c ∈ report_cluster hit cluster.
Proof.
  induction hits as [|hit later IH]; simpl; [by intros ?%elem_of_nil|].
  rewrite elem_of_app. intros [Hc|Hc]; eauto.
Qed.

Lemma sorted_set_ascending l i j x y :
  (i < j)%nat → sorted_set l !! i = Some x → sorted_set l !! j = Some y →
  (x < y)%nat.
Proof.
  intros Hij Hi Hj.
  assert (Z.of_nat x ≤ Z.of_nat y) as Hle.
  { unfold sorted_set in *.
    eapply (sorted_lookup_le Z.of_nat); [apply sort_by_sorted|done..]. }
  assert (NoDup (sorted_set l)) as Hnd.
  { unfold sorted_set. rewrite sort_by_perm. apply NoDup_elements. }
  assert (x ≠ y); [|lia]. intros ->.
  pose proof (NoDup_lookup _ _ _ _ Hnd Hi Hj). lia.
Qed.

(** X19: The entity indices of a reported cluster are listed in strictly
    ascending order. *)
Theorem multi_user_colocation_indices_ascending users w c i j x y :
  c ∈ multi_user_colocation users w →
  (i < j)%nat →
  user_indices c !! i = Some x → user_indices c !! j = Some y →
  (x < y)%nat.
Proof.
  unfold multi_user_colocation.
  intros (hit & cluster & Hrep)%deduplicate_elem%find_clusters_reported.
  unfold report_cluster in Hrep. destruct (3 <=? length cluster)%nat;
    [|by apply elem_of_nil in Hrep].
  apply list_elem_of_singleton in Hrep as ->. simpl.
  apply sorted_set_ascending.
Qed.

Lemma multi_user_colocation_indices_ascending_witness : (0 < 2)%nat.
Proof.
  apply (multi_user_colocation_indices_ascending
           [sample_a; sample_b; sample_c] 30
           (mkCluster "T1" [0; 1; 2]%nat 3 36000 36600 600) 0 2).
  - rewrite multi_user_colocation_sample. apply list_elem_of_here.
  - lia.
  - reflexivity.
  - reflexivity.
Defined.

Lemma deduplicate_keys seen cs :
  NoDup (dedup_key <$> deduplicate seen cs) ∧
  ∀ c, c ∈ deduplicate seen cs → dedup_key c ∉ seen.
Proof.
  revert seen. induction cs as [|c0 cs IH]; intros seen; simpl.
  - split; [constructor|]. by intros c ?%elem_of_nil.
  - case_bool_decide as Hseen; [apply IH|].
    destruct (IH ({[dedup_key c0]} ∪ seen)) as [Hnd Hfresh].
    split.
    + simpl. constructor; [|done].
      intros (c & Hkey & Hc)%list_elem_of_fmap.
      apply Hfresh in Hc. rewrite <- Hkey in Hc. apply Hc.
      apply elem_of_union. left. by apply elem_of_singleton.
    + intros c [->|Hc]%elem_of_cons; [done|].
      apply Hfresh in Hc. intros Hin. apply Hc.
      apply elem_of_union. by right.
Qed.

Lemma deduplicate_covers seen cs c :
  c ∈ cs → dedup_key c ∈ seen ∨
           ∃ c', c' ∈ deduplicate seen cs ∧ dedup_key c' = dedup_key c.
Proof.
  revert seen. induction cs as [|c0 cs IH]; intros seen;
    [by intros ?%elem_of_nil|].
  simpl. intros [->|Hc]%elem_of_cons.
  - case_bool_decide; [by left|]. right. exists c0. split; [left|done].
  - case_bool_decide.
    + by apply IH.
    + destruct (IH ({[dedup_key c0]} ∪ seen) Hc) as [Hin|(c' & Hc' & Hkey)].
      * apply elem_of_union in Hin as [Hin|Hin]; [|by left].
        apply elem_of_singleton in Hin. right. exists c0.
        split; [left|done].
      * right. exists c'. split; [by right|done].
Qed.

(** X20: The deduplication leaves no two clusters with the same antenna, the same
    participants and the same earliest minute, and it keeps one cluster for
    every such key among the clusters found. *)
Theorem multi_user_colocation_deduplicated users w :
  NoDup (dedup_key <$> multi_user_colocation users w) ∧
  ∀ c, c ∈ find_clusters (w * 60) (sort_by h_datetime (all_hits users)) →
       ∃ c', c' ∈ multi_user_colocation users w ∧
             c_antenna c' = c_antenna c ∧ user_indices c' = user_indices c ∧
             earliest_time c' `div` 60 = earliest_time c `div` 60.
Proof.
  unfold multi_user_colocation. split; [apply deduplicate_keys|].
  intros c Hc.
  destruct (deduplicate_covers ∅ _ c Hc) as [Hin|(c' & Hc' & Hkey)].
  - by apply not_elem_of_empty in Hin.
  - exists c'. split; [done|]. unfold dedup_key in Hkey.
    injection Hkey as -> -> ->. done.
Qed.

Lemma multi_user_colocation_deduplicated_witness :
  ∃ c', c' ∈ multi_user_colocation [sample_a; sample_b; sample_c] 30 ∧
        c_antenna c' = "T1" ∧ user_indices c' = [0; 1; 2]%nat ∧
        earliest_time c' `div` 60 = 36000 `div` 60.
Proof.
  refine (proj2 (multi_user_colocation_deduplicated
                   [sample_a; sample_b; sample_c] 30)
            (mkCluster "T1" [0; 1; 2]%nat 3 36000 36600 600) _).
  vm_compute. apply list_elem_of_here.
Defined.

(** * Further properties of network.py *)

(** ** The loop over the entities, continued *)

Lemma for_users_short {St} (g : string → User → St → St) user_ids users :
  ∀ i s,
    (i ≤ length user_ids < i + length users)%nat →
    for_users (λ user_id user s, Ok (g user_id user s)) user_ids i users s
    = Raise IndexError.
Proof.
  induction users as [|user users IH]; intros i s Hlen; simpl in *; [lia|].
  unfold get_id. destruct (user_ids !! i) as [user_id|] eqn:Hid; [|done].
  simpl. apply IH. apply lookup_lt_Some in Hid. lia.
Qed.

Lemma for_users_ext {St} (body body' : string → User → St → result St)
  (f : User → User) user_ids users :
  (∀ user_id user s, body user_id (f user) s = body' user_id user s) →
  ∀ i s, for_users body user_ids i (f <$> users) s
         = for_users body' user_ids i users s.
Proof.
  intros Hbody. induction users as [|user users IH]; intros i s; simpl;
    [done|].
  destruct (get_id user_ids i) as [user_id|e]; simpl; [|done].
  rewrite Hbody. destruct (body' user_id user s); simpl; [apply IH|done].
Qed.

(** What holds of the initial value and is kept by every successful round of
    the body holds of the final value. *)
Lemma for_users_invariant {St} (body : string → User → St → result St)
  (Inv : St → Prop) user_ids users :
  (∀ i user_id user s s',
     user_ids !! i = Some user_id → users !! i = Some user →
     Inv s → body user_id user s = Ok s' → Inv s') →
  ∀ s s', Inv s → for_users body user_ids 0 users s = Ok s' → Inv s'.
Proof.
  intros Hbody.
  assert (∀ us i s s',
    (∀ j user, us !! j = Some user → users !! (i + j)%nat = Some user) →
    Inv s → for_users body user_ids i us s = Ok s' → Inv s') as Hgen.
  { induction us as [|user us IH]; intros i s s' Hus Hs; simpl.
    - by intros [= <-].
    - unfold get_id. destruct (user_ids !! i) as [user_id|] eqn:Hid; [|done].
      simpl. destruct (body user_id user s) as [s1|e] eqn:Hb; [|done]. simpl.
      apply IH.
      + intros j u Hj. replace (S i + j)%nat with (i + S j)%nat by lia.
        by apply Hus.
      + eapply Hbody; [exact Hid| |exact Hs|exact Hb].
        specialize (Hus 0%nat user eq_refl). by rewrite Nat.add_0_r in Hus. }
  intros s s'. apply Hgen. intros j user Hj. done.
Qed.

(** ** The ordered dictionaries, continued *)

Lemma elem_of_dict_set {K V} `{EqDecision K} (k k' : K) (v v' : V)
  (d : odict K V) :
  (k', v') ∈ dict_set k v d → (k' = k ∧ v' = v) ∨ (k', v') ∈ d.
Proof.
  induction d as [|[k0 v0] d IH]; simpl.
  - intros [= -> ->]%list_elem_of_singleton. by left.
  - destruct (decide (k = k0)) as [->|Hne].
    + intros [[= -> ->]|Hin]%elem_of_cons; [by left|]. right. by right.
    + intros [Heq|Hin]%elem_of_cons; [right; rewrite Heq; left|].
      destruct (IH Hin) as [?|?]; [by left|]. right. by right.
Qed.

Lemma dict_set_keys {K V} `{EqDecision K} (k : K) (v : V) (d : odict K V) :
  (∀ k', k' ∈ (dict_set k v d).*1 ↔ k' = k ∨ k' ∈ d.*1) ∧
  (NoDup d.*1 → NoDup (dict_set k v d).*1).
Proof.
  induction d as [|[k0 v0] d [IHin IHnd]]; simpl.
  - split.
    + intros k'. rewrite list_elem_of_singleton, elem_of_nil. tauto.
    + intros _. apply NoDup_singleton.
  - destruct (decide (k = k0)) as [->|Hne]; simpl.
    + split; [|done]. intros k'. rewrite !elem_of_cons. tauto.
    + split.
      * intros k'. rewrite !elem_of_cons, IHin. tauto.
      * intros [Hk0 Hnd]%NoDup_cons. constructor; [|by apply IHnd].
        rewrite IHin. intros [->|?]; done.
Qed.

(** ** The index error *)

(** X21: When there are fewer identifiers than entities, the aggregations whose
    loop body cannot fail raise [IndexError]; otherwise they return. *)
Theorem network_index_error users user_ids w min_shared :
  ((length user_ids < length users)%nat →
     build_communication_matrix users user_ids = Raise IndexError ∧
     degree_centrality users user_ids = Raise IndexError ∧
     communication_chains users user_ids w = Raise IndexError ∧
     shared_contacts users user_ids min_shared = Raise IndexError ∧
     identify_bridges users user_ids = Raise IndexError) ∧
  ((length users ≤ length user_ids)%nat →
     (∃ m, build_communication_matrix users user_ids = Ok m) ∧
     (∃ c, degree_centrality users user_ids = Ok c) ∧
     (∃ chains, communication_chains users user_ids w = Ok chains) ∧
     (∃ shared, shared_contacts users user_ids min_shared = Ok shared) ∧
     (∃ bridges, identify_bridges users user_ids = Ok bridges)).
Proof.
  split; intros Hlen.
  - unfold build_communication_matrix, degree_centrality,
      communication_chains, shared_contacts, identify_bridges.
    rewrite (for_users_short (λ user_id user matrix,
               fold_left (λ m r, dict_update 0%nat S (edge_of user_id r) m)
                         (records user) matrix)) by (simpl; lia).
    rewrite (for_users_short (λ user_id user results,
               dict_set user_id (centrality_of (id_set user_ids) user) results))
      by (simpl; lia).
    rewrite (for_users_short (λ user_id user comms,
               comms ++ outgoing user_id user)) by (simpl; lia).
    rewrite (for_users_short (λ user_id user c2u,
               fold_left (λ d contact,
                            dict_update [] (λ l, l ++ [user_id]) contact d)
                         (elements (contact_set user)) c2u)) by (simpl; lia).
    rewrite (for_users_short (λ user_id user uc,
               dict_set user_id (contact_set user ∩ id_set user_ids) uc))
      by (simpl; lia).
    done.
  - unfold build_communication_matrix, degree_centrality,
      communication_chains, shared_contacts, identify_bridges.
    rewrite (for_users_ok (λ user_id user matrix,
               fold_left (λ m r, dict_update 0%nat S (edge_of user_id r) m)
                         (records user) matrix)) by (simpl; lia).
    rewrite (for_users_ok (λ user_id user results,
               dict_set user_id (centrality_of (id_set user_ids) user) results))
      by (simpl; lia).
    rewrite (for_users_ok (λ user_id user comms,
               comms ++ outgoing user_id user)) by (simpl; lia).
    rewrite (for_users_ok (λ user_id user c2u,
               fold_left (λ d contact,
                            dict_update [] (λ l, l ++ [user_id]) contact d)
                         (elements (contact_set user)) c2u)) by (simpl; lia).
    rewrite (for_users_ok (λ user_id user uc,
               dict_set user_id (contact_set user ∩ id_set user_ids) uc))
      by (simpl; lia).
    simpl. eauto 10.
Qed.

Lemma network_index_error_witness :
  build_communication_matrix sample_entities ["A"; "B"] = Raise IndexError ∧
  ∃ m, build_communication_matrix sample_entities ["A"; "B"; "C"] = Ok m.
Proof.
  split.
  - refine (proj1 (proj1 (network_index_error sample_entities ["A"; "B"] 30 2)
                     _)). simpl. lia.
  - refine (proj1 (proj2 (network_index_error sample_entities ["A"; "B"; "C"]
                            30 2) _)). simpl. lia.
Defined.

(** ** build_communication_matrix, continued *)

Lemma fold_left_fmap_list {A B C} (f : A → B → A) (g : C → B) (l : list C) :
  ∀ a, fold_left f (g <$> l) a = fold_left (λ a x, f a (g x)) l a.
Proof. induction l as [|x l IH]; intros a; simpl; [done|apply IH]. Qed.

(** The matrix is filled edge by edge, in the order of the records. *)
Lemma build_communication_matrix_fold users user_ids :
  (length users ≤ length user_ids)%nat →
  build_communication_matrix users user_ids
  = Ok (fold_left (λ m e, dict_update 0%nat S e m)
          (all_edges users user_ids) []).
Proof.
  intros Hlen. unfold build_communication_matrix.
  rewrite (for_users_ok (λ user_id user matrix,
             fold_left (λ m r, dict_update 0%nat S (edge_of user_id r) m)
                       (records user) matrix)) by (simpl; lia).
  rewrite drop_0. f_equal. unfold all_edges.
  generalize (@nil (Edge * nat)).
  induction (zip user_ids users) as [|p ps IH]; intros m; [done|].
  cbn [fold_left]. rewrite bind_cons, fold_left_app, fold_left_fmap_list.
  apply IH.
Qed.

Lemma fold_dict_update_keys {K V} `{EqDecision K} (dflt : V) (f : V → V)
  (ks : list K) :
  ∀ d : odict K V,
    (∀ k, k ∈ (fold_left (λ d k, dict_update dflt f k d) ks d).*1
          ↔ k ∈ d.*1 ∨ k ∈ ks) ∧
    (NoDup d.*1 → NoDup (fold_left (λ d k, dict_update dflt f k d) ks d).*1).
Proof.
  induction ks as [|k0 ks IH]; intros d; simpl.
  - split; [|done]. intros k. rewrite elem_of_nil. tauto.
  - destruct (IH (dict_update dflt f k0 d)) as [IHin IHnd].
    destruct (dict_set_keys k0 (f (default dflt (dict_get k0 d))) d)
      as [Hin Hnd].
    split.
    + intros k. rewrite IHin. unfold dict_update. rewrite Hin, elem_of_cons.
      tauto.
    + intros Hd. apply IHnd. unfold dict_update. by apply Hnd.
Qed.

Lemma fold_dict_update_count (e : Edge) (es : list Edge) :
  ∀ m, matrix_count (fold_left (λ m e', dict_update 0%nat S e' m) es m) e
       = (matrix_count m e + length (filter (λ e', e' = e) es))%nat.
Proof.
  induction es as [|e0 es IH]; intros m; [simpl; lia|].
  cbn [fold_left]. rewrite IH, filter_cons. unfold matrix_count at 1.
  unfold dict_update. destruct (decide (e0 = e)) as [->|Hne].
  - rewrite dict_get_set_eq. unfold matrix_count. simpl. lia.
  - rewrite dict_get_set_ne by done. unfold matrix_count. lia.
Qed.

(** X22: The communication matrix has one key per different edge of the records,
    and the count of an edge is the number of records with that edge: an
    outgoing record of X to Y and an incoming record of Y from X count for
    the same edge (X, Y). *)
Theorem build_communication_matrix_counts_edges users user_ids :
  (length users ≤ length user_ids)%nat →
  ∃ m, build_communication_matrix users user_ids = Ok m ∧
       NoDup m.*1 ∧
       ∀ e, (e ∈ m.*1 ↔ e ∈ all_edges users user_ids) ∧
            matrix_count m e
            = length (filter (λ e', e' = e) (all_edges users user_ids)).
Proof.
  intros Hlen. rewrite build_communication_matrix_fold by done.
  eexists. split; [reflexivity|].
  destruct (fold_dict_update_keys 0%nat S (all_edges users user_ids) [])
    as [Hin Hnd].
  split; [apply Hnd; constructor|]. intros e. split.
  - rewrite Hin. simpl. rewrite elem_of_nil. tauto.
  - by rewrite fold_dict_update_count.
Qed.

Lemma build_communication_matrix_counts_edges_witness :
  ∃ m, build_communication_matrix sample_anonymous ["A"; "B"] = Ok m ∧
       NoDup m.*1.
Proof.
  destruct (build_communication_matrix_counts_edges sample_anonymous ["A"; "B"])
    as (m & Hm & Hnd & _).
  - simpl. lia.
  - exists m. split; [exact Hm|exact Hnd].
Defined.

(** ** degree_centrality, continued *)

Lemma size_partition (X Y : gset (option string)) :
  size X = (size (X ∩ Y) + size (X ∖ Y))%nat.
Proof.
  rewrite <- size_union.
  - f_equal. apply set_eq. intros x.
    rewrite elem_of_union, elem_of_intersection, elem_of_difference.
    destruct (decide (x ∈ Y)); tauto.
  - intros x. rewrite elem_of_intersection, elem_of_difference. tauto.
Qed.

(** X23: Every entry of the degree centrality splits the contacts of one entity
    into those that are modeled entities and those that are not: the total is
    the sum of the two counts, each count is the length of its list, and the
    entries come in descending order of the total. *)
Theorem degree_centrality_partition users user_ids res :
  degree_centrality users user_ids = Ok res →
  (∀ user_id c, (user_id, c) ∈ res →
     total_contacts c = (in_network_contacts c + out_of_network_contacts c)%nat ∧
     in_network_contacts c = length (in_network_list c) ∧
     out_of_network_contacts c = length (out_of_network_list c) ∧
     (∀ z, z ∈ in_network_list c → z ∈ id_set user_ids) ∧
     (∀ z, z ∈ out_of_network_list c → z ∉ id_set user_ids) ∧
     ∃ i user, user_ids !! i = Some user_id ∧ users !! i = Some user ∧
               total_contacts c = size (contact_set user)) ∧
  (∀ i j x y, (i < j)%nat → res !! i = Some x → res !! j = Some y →
              (total_contacts y.2 ≤ total_contacts x.2)%nat).
Proof.
  unfold degree_centrality.
  destruct (for_users
              (λ user_id user results,
                 Ok (dict_set user_id (centrality_of (id_set user_ids) user)
                       results))
              user_ids 0%nat users []) as [results|e] eqn:Hfor; [|done].
  simpl. intros [= <-]. split.
  - intros user_id c Hin%elem_of_sort_by.
    assert (∃ i user, user_ids !! i = Some user_id ∧ users !! i = Some user ∧
                      c = centrality_of (id_set user_ids) user)
      as (i & user & Hid & Hu & ->).
    { revert Hin. generalize user_id c.
      refine (for_users_invariant _
        (λ results, ∀ user_id c, (user_id, c) ∈ results →
           ∃ i user, user_ids !! i = Some user_id ∧ users !! i = Some user ∧
                     c = centrality_of (id_set user_ids) user)
        user_ids users _ [] results _ Hfor).
      - intros i uid user r r' Hid Hu Hinv [= <-] uid' c'
          [[-> ->]|Hin]%elem_of_dict_set; eauto.
      - by intros ? ? ?%elem_of_nil. }
    simpl. split_and!.
    + apply size_partition.
    + done.
    + done.
    + intros z [_ ?]%elem_of_elements%elem_of_intersection. done.
    + intros z [_ ?]%elem_of_elements%elem_of_difference. done.
    + eauto.
  - intros i j x y Hij Hi Hj.
    pose proof (sort_by_sorted (λ x : string * Centrality,
                  - Z.of_nat (total_contacts x.2)) results) as Hsorted.
    pose proof (sorted_lookup_le _ _ Hsorted i j x y Hij Hi Hj). simpl in *.
    lia.
Qed.

Lemma degree_centrality_partition_witness :
  total_contacts
    {| total_contacts := 2; in_network_contacts := 1;
       out_of_network_contacts := 1; in_network_list := [Some "B"];
       out_of_network_list := [None] |} = (1 + 1)%nat.
Proof.
  refine (proj1 (proj1 (degree_centrality_partition sample_anonymous
                          ["A"; "B"] _ _) "A" _ _)).
  - exact (proj1 (proj2 aggregations_sample_anonymous)).
  - left.
Defined.

(** ** communication_chains, continued *)

Lemma chains_from_sound w comm_ab later ch :
  ch ∈ chains_from w comm_ab later →
  ∃ comm_bc, comm_bc ∈ later ∧
    comm_to comm_ab = Some (comm_from comm_bc) ∧
    comm_time comm_bc - comm_time comm_ab ≤ w ∧
    ch = chain_of comm_ab comm_bc.
Proof.
  induction later as [|comm_bc later IH]; simpl; [by intros ?%elem_of_nil|].
  destruct (Z.gtb_spec (comm_time comm_bc - comm_time comm_ab) w)
    as [Hgt|Hle]; [by intros ?%elem_of_nil|].
  rewrite elem_of_app. intros [Hch|Hch].
  - case_bool_decide; [|by apply elem_of_nil in Hch].
    apply list_elem_of_singleton in Hch. exists comm_bc.
    split_and!; [left|done|done|done].
  - destruct (IH Hch) as (bc & Hbc & ? & ? & ?). exists bc.
    split_and!; [by right|done..].
Qed.

Lemma chains_from_complete w comm_ab later comm_bc :
  StronglySorted (λ a b, comm_time a ≤ comm_time b) later →
  comm_bc ∈ later →
  comm_time comm_bc - comm_time comm_ab ≤ w →
  comm_to comm_ab = Some (comm_from comm_bc) →
  chain_of comm_ab comm_bc ∈ chains_from w comm_ab later.
Proof.
  intros Hsorted Hin Hle Hlink.
  induction Hsorted as [|x later Hsorted IH Hall]; [by apply elem_of_nil in Hin|].
  simpl. rewrite Forall_forall in Hall.
  assert (comm_time x ≤ comm_time comm_bc) as Hx.
  { apply elem_of_cons in Hin as [->|Hin]; [lia|by apply Hall]. }
  destruct (Z.gtb_spec (comm_time x - comm_time comm_ab) w); [lia|].
  apply elem_of_app. apply elem_of_cons in Hin as [->|Hin].
  - left. rewrite bool_decide_eq_true_2 by done. apply list_elem_of_here.
  - right. by apply IH.
Qed.

Lemma find_chains_sound w all_comms ch :
  StronglySorted (λ a b, comm_time a ≤ comm_time b) all_comms →
  ch ∈ find_chains w all_comms →
  ∃ comm_ab comm_bc,
    comm_ab ∈ all_comms ∧ comm_bc ∈ all_comms ∧
    comm_to comm_ab = Some (comm_from comm_bc) ∧
    0 ≤ comm_time comm_bc - comm_time comm_ab ≤ w ∧
    ch = chain_of comm_ab comm_bc.
Proof.
  induction 1 as [|comm_ab later Hsorted IH Hall]; simpl;
    [by intros ?%elem_of_nil|].
  rewrite elem_of_app. intros [Hch|Hch].
  - apply chains_from_sound in Hch as (bc & Hbc & Hlink & Hle & ->).
    rewrite Forall_forall in Hall. specialize (Hall bc Hbc).
    exists comm_ab, bc. split_and!; [left|by right|done|lia|lia|done].
  - destruct (IH Hch) as (ab & bc & ? & ? & ? & ? & ?).
    exists ab, bc. split_and!; [by right|by right|done|lia|lia|done].
Qed.

Lemma find_chains_app w l1 comm_ab l2 ch :
  ch ∈ chains_from w comm_ab l2 → ch ∈ find_chains w (l1 ++ comm_ab :: l2).
Proof.
  intros Hch. induction l1 as [|x l1 IH]; simpl; apply elem_of_app;
    [by left|by right].
Qed.

Lemma find_chains_complete w all_comms comm_ab comm_bc :
  StronglySorted (λ a b, comm_time a ≤ comm_time b) all_comms →
  comm_ab ∈ all_comms → comm_bc ∈ all_comms →
  comm_to comm_ab = Some (comm_from comm_bc) →
  0 < comm_time comm_bc - comm_time comm_ab ≤ w →
  chain_of comm_ab comm_bc ∈ find_chains w all_comms.
Proof.
  intros Hsorted Hab Hbc Hlink Hdelta.
  apply list_elem_of_split in Hab as (l1 & l2 & ->).
  apply find_chains_app, chains_from_complete; [|
    |lia|done].
  - by apply StronglySorted_app_1_r, StronglySorted_inv in Hsorted as [? _].
  - apply elem_of_app in Hbc as [Hbc|Hbc].
    + pose proof (StronglySorted_app_1_elem_of _ _ _ comm_bc comm_ab Hsorted
                    Hbc ltac:(left)) as Hle. simpl in Hle. lia.
    + apply elem_of_cons in Hbc as [->|Hbc]; [lia|done].
Qed.

Lemma elem_of_outgoing user_id user c :
  c ∈ outgoing user_id user ↔
  ∃ r, r ∈ records user ∧ direction r = DirOut ∧
       c = {| comm_from := user_id; comm_to := correspondent_id r;
              comm_time := datetime r |}.
Proof.
  unfold outgoing. rewrite list_elem_of_omap. split.
  - intros (r & Hr & Hc). destruct (direction r) eqn:Hdir; [done|].
    injection Hc as <-. eauto.
  - intros (r & Hr & Hdir & ->). exists r. by rewrite Hdir.
Qed.

(** The timeline of the chain search, before it is sorted. *)
Lemma communication_chains_timeline users user_ids w chains :
  communication_chains users user_ids w = Ok chains →
  ∃ all_comms,
    chains = find_chains (w * 60) (sort_by comm_time all_comms) ∧
    (∀ c, c ∈ all_comms → outgoing_record users user_ids c) ∧
    ((length users ≤ length user_ids)%nat →
     ∀ c, outgoing_record users user_ids c → c ∈ all_comms).
Proof.
  unfold communication_chains.
  destruct (for_users (λ user_id user comms, Ok (comms ++ outgoing user_id user))
              user_ids 0%nat users []) as [all_comms|e] eqn:Hfor; [|done].
  simpl. intros [= <-]. exists all_comms. split_and!; [done| |].
  - refine (for_users_invariant _
      (λ comms, ∀ c, c ∈ comms → outgoing_record users user_ids c)
      user_ids users _ [] all_comms _ Hfor).
    + intros i uid user comms comms' Hid Hu Hinv [= <-] c
        [Hc|Hc]%elem_of_app; [by apply Hinv|].
      apply elem_of_outgoing in Hc as (r & Hr & Hdir & ->).
      exists i, user, r. done.
    + by intros c ?%elem_of_nil.
  - intros Hlen c (i & user & r & Hid & Hu & Hr & Hdir & Hto & Htime).
    rewrite (for_users_ok (λ user_id user comms, comms ++ outgoing user_id user))
      in Hfor by (simpl; lia).
    injection Hfor as <-. rewrite drop_0.
    assert (∀ ps acc, (comm_from c, user) ∈ ps →
      c ∈ fold_left (λ s (p : string * User), s ++ outgoing p.1 p.2) ps acc)
      as Hgen.
    { assert (∀ ps acc, c ∈ acc →
        c ∈ fold_left (λ s (p : string * User), s ++ outgoing p.1 p.2) ps acc)
        as Hkeep.
      { induction ps as [|p ps IH]; intros acc Hacc; simpl; [done|].
        apply IH, elem_of_app. by left. }
      induction ps as [|p ps IH]; intros acc Hin; [by apply elem_of_nil in Hin|].
      simpl. apply elem_of_cons in Hin as [<-|Hin]; [|by apply IH].
      apply Hkeep, elem_of_app. right. simpl. apply elem_of_outgoing.
      exists r. split_and!; [done|done|]. destruct c. simpl in *. by subst. }
    apply Hgen, elem_of_zip_lookup. eauto.
Qed.

(** X24: Every chain joins two outgoing records of modeled entities, the second
    sent by the recipient of the first, no earlier than the first and no
    later than the window after it; the chain lists the three parties, the
    two times and their difference. *)
Theorem communication_chains_sound users user_ids w chains ch :
  communication_chains users user_ids w = Ok chains →
  ch ∈ chains →
  outgoing_record users user_ids (a_to_b ch) ∧
  outgoing_record users user_ids (b_to_c ch) ∧
  comm_to (a_to_b ch) = Some (comm_from (b_to_c ch)) ∧
  sequence ch = [Some (comm_from (a_to_b ch)); comm_to (a_to_b ch);
                 comm_to (b_to_c ch)] ∧
  times ch = [comm_time (a_to_b ch); comm_time (b_to_c ch)] ∧
  total_time_seconds ch = comm_time (b_to_c ch) - comm_time (a_to_b ch) ∧
  0 ≤ total_time_seconds ch ≤ w * 60.
Proof.
  intros (all_comms & -> & Hout & _)%communication_chains_timeline Hch.
  apply find_chains_sound in Hch
      as (ab & bc & Hab & Hbc & Hlink & Hdelta & ->); [|apply sort_by_sorted].
  apply elem_of_sort_by in Hab, Hbc. simpl.
  split_and!; [by apply Hout|by apply Hout|done|done|done|done|lia|lia].
Qed.

Lemma communication_chains_sound_witness :
  0 ≤ total_time_seconds
        (chain_of (mkComm "A" (Some "B") 1000) (mkComm "B" (Some "A") 1060))
    ≤ 30 * 60.
Proof.
  refine (proj2 (proj2 (proj2 (proj2 (proj2 (proj2
    (communication_chains_sound
       [caller (call_to 1000 "B"); caller (call_to 1060 "A")] ["A"; "B"] 30
       _ _ _ _))))))).
  - vm_compute. reflexivity.
  - apply list_elem_of_here.
Defined.

(** X25: Every pair of outgoing records of modeled entities, the second sent by
    the recipient of the first, later than the first and within the window,
    gives a chain: the search does not stop at the first match. *)
Theorem communication_chains_complete users user_ids w chains comm_ab comm_bc :
  (length users ≤ length user_ids)%nat →
  communication_chains users user_ids w = Ok chains →
  outgoing_record users user_ids comm_ab →
  outgoing_record users user_ids comm_bc →
  comm_to comm_ab = Some (comm_from comm_bc) →
  0 < comm_time comm_bc - comm_time comm_ab ≤ w * 60 →
  chain_of comm_ab comm_bc ∈ chains.
Proof.
  intros Hlen (all_comms & -> & _ & Hin)%communication_chains_timeline
    Hab Hbc Hlink Hdelta.
  apply find_chains_complete; [apply sort_by_sorted| | |done|done];
    apply elem_of_sort_by; by apply Hin.
Qed.

Lemma communication_chains_complete_witness :
  chain_of (mkComm "A" (Some "B") 1000) (mkComm "B" (Some "A") 1060)
  ∈ [ chain_of (mkComm "A" (Some "B") 1000) (mkComm "B" (Some "A") 1060) ].
Proof.
  refine (communication_chains_complete
            [caller (call_to 1000 "B"); caller (call_to 1060 "A")] ["A"; "B"]
            30 _ _ _ _ _ _ _ _ _).
  - simpl. lia.
  - vm_compute. reflexivity.
  - exists 0%nat, (caller (call_to 1000 "B")), (call_to 1000 "B").
    split_and!; [reflexivity|reflexivity|left|reflexivity..].
  - exists 1%nat, (caller (call_to 1060 "A")), (call_to 1060 "A").
    split_and!; [reflexivity|reflexivity|left|reflexivity..].
  - reflexivity.
  - simpl. lia.
Defined.

Lemma outgoing_only_outgoing user_id user :
  outgoing user_id (only_outgoing user) = outgoing user_id user.
Proof.
  unfold outgoing, only_outgoing. simpl.
  induction (records user) as [|r rs IH]; [done|].
  rewrite filter_cons. destruct (decide (direction r = DirOut)) as [Hd|Hd].
  - simpl. rewrite Hd. f_equal. exact IH.
  - simpl. destruct (direction r); [exact IH|done].
Qed.

(** X26: The chain search only reads the outgoing records: removing the incoming
    records of every entity changes nothing, errors included. *)
Theorem communication_chains_ignores_incoming users user_ids w :
  communication_chains (only_outgoing <$> users) user_ids w
  = communication_chains users user_ids w.
Proof.
  unfold communication_chains.
  rewrite (for_users_ext
             (λ user_id user comms, Ok (comms ++ outgoing user_id user))
             (λ user_id user comms, Ok (comms ++ outgoing user_id user))
             only_outgoing); [done|].
  intros user_id user comms. by rewrite outgoing_only_outgoing.
Qed.

(** ** shared_contacts, continued *)

Lemma shared_fold_invariant (P : string → option string → Prop) user_id cs :
  (∀ c, c ∈ cs → P user_id c) →
  ∀ d : odict (option string) (list string),
    (NoDup d.*1 ∧
     ∀ c l, (c, l) ∈ d → l ≠ [] ∧ ∀ x, x ∈ l → P x c) →
    let d' := fold_left (λ d c, dict_update [] (λ l, l ++ [user_id]) c d) cs d
    in NoDup d'.*1 ∧ ∀ c l, (c, l) ∈ d' → l ≠ [] ∧ ∀ x, x ∈ l → P x c.
Proof.
  induction cs as [|c0 cs IH]; intros Hcs d Hd; simpl; [done|].
  apply IH; [intros c Hc; apply Hcs; by right|].
  destruct Hd as [Hnd Hd]. unfold dict_update. split.
  - by apply dict_set_keys.
  - intros c l [[-> ->]|Hin]%elem_of_dict_set; [|by apply Hd].
    split; [by destruct (default [] (dict_get c0 d))|].
    intros x [Hx|Hx]%elem_of_app.
    + destruct (dict_get c0 d) as [l0|] eqn:Hget; simpl in Hx;
        [|by apply elem_of_nil in Hx].
      apply dict_get_elem in Hget. by apply (Hd c0 l0).
    + apply list_elem_of_singleton in Hx as ->. apply Hcs. left.
Qed.

(** X27: Every shared contact is listed once, with at least [min_shared] and at
    least one entity; every entity listed with a contact is a modeled entity
    that has this contact; the contacts come in descending order of the
    number of entities. *)
Theorem shared_contacts_sound users user_ids min_shared res :
  shared_contacts users user_ids min_shared = Ok res →
  NoDup res.*1 ∧
  (∀ c l, (c, l) ∈ res →
     min_shared ≤ Z.of_nat (length l) ∧ (1 ≤ length l)%nat ∧
     ∀ x, x ∈ l → ∃ i user, user_ids !! i = Some x ∧ users !! i = Some user ∧
                            c ∈ contact_set user) ∧
  (∀ i j x y, (i < j)%nat → res !! i = Some x → res !! j = Some y →
              (length y.2 ≤ length x.2)%nat).
Proof.
  unfold shared_contacts.
  destruct (for_users
              (λ user_id user c2u,
                 Ok (fold_left
                       (λ d contact,
                          dict_update [] (λ l, l ++ [user_id]) contact d)
                       (elements (contact_set user)) c2u))
              user_ids 0%nat users []) as [c2u|e] eqn:Hfor; [|done].
  simpl. intros [= <-].
  assert (NoDup c2u.*1 ∧
          ∀ c l, (c, l) ∈ c2u → l ≠ [] ∧
            ∀ x, x ∈ l → ∃ i user, user_ids !! i = Some x ∧
                           users !! i = Some user ∧ c ∈ contact_set user)
    as [Hnd Hinv].
  { refine (for_users_invariant _
      (λ d, NoDup d.*1 ∧
            ∀ c l, (c, l) ∈ d → l ≠ [] ∧
              ∀ x, x ∈ l → ∃ i user, user_ids !! i = Some x ∧
                             users !! i = Some user ∧ c ∈ contact_set user)
      user_ids users _ [] c2u _ Hfor).
    - intros i uid user d d' Hid Hu Hd [= <-].
      apply (shared_fold_invariant
               (λ x c, ∃ i user, user_ids !! i = Some x ∧
                         users !! i = Some user ∧ c ∈ contact_set user));
        [|done].
      intros c Hc%elem_of_elements. eauto.
    - split; [constructor|]. by intros c l ?%elem_of_nil. }
  unfold sort_by_desc. split_and!.
  - rewrite sort_by_perm. eapply sublist_NoDup; [exact Hnd|].
    apply fmap_sublist, sublist_filter.
  - intros c l [Hmin Hin]%elem_of_sort_by%list_elem_of_filter.
    destruct (Hinv c l Hin) as [Hne Hl]. simpl in Hmin.
    split_and!; [done| |done]. destruct l; [done|simpl; lia].
  - intros i j x y Hij Hi Hj.
    pose proof (sort_by_sorted (λ x : option string * list string,
                  - Z.of_nat (length x.2))
                  (filter (λ kv : option string * list string,
                             min_shared ≤ Z.of_nat (length kv.2)) c2u))
      as Hsorted.
    pose proof (sorted_lookup_le _ _ Hsorted i j x y Hij Hi Hj). simpl in *.
    lia.
Qed.

Lemma shared_contacts_sound_witness :
  NoDup [ (Some "B", ["A"]); (None, ["A"]); (Some "A", ["B"]) ].*1.
Proof.
  refine (proj1 (shared_contacts_sound sample_anonymous ["A"; "B"] 1 _ _)).
  exact (proj1 (proj2 (proj2 aggregations_sample_anonymous))).
Defined.

(** ** Counting the records *)

Lemma sum_list_app (l k : list nat) :
  sum_list (l ++ k) = (sum_list l + sum_list k)%nat.
Proof. induction l as [|x l IH]; simpl; [done|]. rewrite IH. lia. Qed.

Lemma sum_list_perm (l k : list nat) : l ≡ₚ k → sum_list l = sum_list k.
Proof. induction 1; simpl; lia. Qed.

Lemma record_count_take users i user :
  users !! i = Some user →
  record_count (take (S i) users)
  = (record_count (take i users) + length (records user))%nat.
Proof.
  intros Hu. unfold record_count.
  rewrite (take_S_r _ _ _ Hu), fmap_app, sum_list_app. simpl. lia.
Qed.

(** The loop over the entities with an invariant that follows the index. *)
Lemma for_users_invariant_indexed {St}
  (body : string → User → St → result St) (Inv : nat → St → Prop)
  user_ids users :
  (∀ i user_id user s s',
     user_ids !! i = Some user_id → users !! i = Some user →
     Inv i s → body user_id user s = Ok s' → Inv (S i) s') →
  ∀ s s', Inv 0%nat s → for_users body user_ids 0 users s = Ok s' →
          Inv (length users) s'.
Proof.
  intros Hbody.
  assert (∀ us i s s',
    (∀ j user, us !! j = Some user → users !! (i + j)%nat = Some user) →
    (i + length us)%nat = length users →
    Inv i s → for_users body user_ids i us s = Ok s' →
    Inv (length users) s') as Hgen.
  { induction us as [|user us IH]; intros i s s' Hus Hlen Hs; simpl.
    - intros [= <-]. simpl in Hlen. rewrite Nat.add_0_r in Hlen. by subst.
    - unfold get_id. destruct (user_ids !! i) as [user_id|] eqn:Hid; [|done].
      simpl. destruct (body user_id user s) as [s1|e] eqn:Hb; [|done]. simpl.
      apply IH.
      + intros j u Hj. replace (S i + j)%nat with (i + S j)%nat by lia.
        by apply Hus.
      + simpl in Hlen. lia.
      + eapply Hbody; [exact Hid| |exact Hs|exact Hb].
        specialize (Hus 0%nat user eq_refl). by rewrite Nat.add_0_r in Hus. }
  intros s s'. apply Hgen; [|done]. intros j user Hj. done.
Qed.

(** ** communication_volume_matrix *)

Lemma dict_set_sum {K V} `{EqDecision K} (μ : V → nat) (k : K) (v : V)
  (d : odict K V) :
  (sum_list (μ <$> (dict_set k v d).*2) + default 0 (μ <$> dict_get k d))%nat
  = (sum_list (μ <$> d.*2) + μ v)%nat.
Proof.
  induction d as [|[k0 v0] d IH]; simpl; [lia|].
  destruct (decide (k = k0)) as [->|Hne]; simpl; [lia|].
  change (list_fmap V nat μ (list_fmap (K * V)%type V snd (dict_set k v d)))
    with (μ <$> (dict_set k v d).*2).
  change (list_fmap V nat μ (list_fmap (K * V)%type V snd d))
    with (μ <$> d.*2).
  lia.
Qed.

Lemma dict_update_sum {K V} `{EqDecision K} (μ : V → nat) (dflt : V)
  (f : V → V) (k : K) (d : odict K V) :
  μ dflt = 0%nat → (∀ v, μ (f v) = S (μ v)) →
  sum_list (μ <$> (dict_update dflt f k d).*2) = S (sum_list (μ <$> d.*2)).
Proof.
  intros Hdflt Hf. unfold dict_update.
  pose proof (dict_set_sum μ k (f (default dflt (dict_get k d))) d) as Hsum.
  rewrite Hf in Hsum. destruct (dict_get k d) as [v0|]; simpl in *; lia.
Qed.

Lemma sorted_pair_ordered user_id correspondent a b :
  sorted_pair user_id correspondent = Ok (a, b) →
  String.ltb b a = false ∧
  ((a = user_id ∧ correspondent = Some b) ∨
   (b = user_id ∧ correspondent = Some a)).
Proof.
  unfold sorted_pair. destruct correspondent as [c|]; [|done].
  unfold String.ltb. destruct (String.compare c user_id) eqn:Hcmp;
    intros [= <- <-].
  - rewrite Hcmp. split; [done|]. by left.
  - rewrite String.compare_antisym, Hcmp. simpl. split; [done|]. by right.
  - rewrite Hcmp. split; [done|]. by left.
Qed.

Lemma add_volume_total r v :
  v_total (add_volume r v) = S (v_total v) ∧
  (v_total v = (v_calls v + v_texts v)%nat →
   v_total (add_volume r v)
   = (v_calls (add_volume r v) + v_texts (add_volume r v))%nat).
Proof. unfold add_volume. destruct (interaction r); simpl; lia. Qed.

(** What one pass over the records of an entity keeps. *)
Lemma volume_of_records_invariant user_id rs :
  ∀ matrix matrix',
    volume_of_records user_id rs matrix = Ok matrix' →
    (NoDup matrix.*1 ∧
     ∀ a b v, ((a, b), v) ∈ matrix →
       String.ltb b a = false ∧ (1 ≤ v_total v)%nat ∧
       v_total v = (v_calls v + v_texts v)%nat) →
    (NoDup matrix'.*1 ∧
     ∀ a b v, ((a, b), v) ∈ matrix' →
       String.ltb b a = false ∧ (1 ≤ v_total v)%nat ∧
       v_total v = (v_calls v + v_texts v)%nat) ∧
    sum_list (v_total <$> matrix'.*2)
    = (sum_list (v_total <$> matrix.*2) + length rs)%nat.
Proof.
  induction rs as [|r rs IH]; intros matrix matrix'; simpl.
  - intros [= <-] Hinv. split; [done|lia].
  - destruct (sorted_pair user_id (correspondent_id r)) as [[a0 b0]|e]
      eqn:Hpair; [|done]. simpl.
    intros Hrest [Hnd Hinv].
    apply IH in Hrest as [Hinv' Hsum].
    + split; [done|]. rewrite Hsum.
      rewrite (dict_update_sum v_total); [lia|done|].
      intros v. apply add_volume_total.
    + unfold dict_update. split; [by apply dict_set_keys|].
      intros a b v [[[= -> ->] ->]|Hin]%elem_of_dict_set; [|by apply Hinv].
      apply sorted_pair_ordered in Hpair as [Hord _].
      destruct (dict_get (a0, b0) matrix) as [v0|] eqn:Hget; simpl.
      * apply dict_get_elem, Hinv in Hget as (_ & Hpos & Htot).
        pose proof (add_volume_total r v0) as [Hs Hsplit].
        split_and!; [done|lia|by apply Hsplit].
      * pose proof (add_volume_total r (mkVolume 0 0 0 0)) as [Hs Hsplit].
        split_and!; [done|simpl in Hs; lia|by apply Hsplit].
Qed.

(** X28: The volume matrix has one entry per unordered pair: the key is in
    ascending order, whoever made the record; the total of an entry is at
    least 1 and is the sum of its calls and texts; the totals add up to the
    number of records; the entries come in descending order of the total. *)
Theorem communication_volume_matrix_entries users user_ids res :
  communication_volume_matrix users user_ids = Ok res →
  NoDup res.*1 ∧
  (∀ a b v, ((a, b), v) ∈ res →
     String.ltb b a = false ∧ (1 ≤ v_total v)%nat ∧
     v_total v = (v_calls v + v_texts v)%nat) ∧
  sum_list (v_total <$> res.*2) = record_count users ∧
  (∀ i j x y, (i < j)%nat → res !! i = Some x → res !! j = Some y →
              (v_total y.2 ≤ v_total x.2)%nat).
Proof.
  unfold communication_volume_matrix.
  destruct (for_users
              (λ user_id user matrix,
                 volume_of_records user_id (records user) matrix)
              user_ids 0%nat users []) as [matrix|e] eqn:Hfor; [|done].
  simpl. intros [= <-].
  assert ((NoDup matrix.*1 ∧
           ∀ a b v, ((a, b), v) ∈ matrix →
             String.ltb b a = false ∧ (1 ≤ v_total v)%nat ∧
             v_total v = (v_calls v + v_texts v)%nat) ∧
          sum_list (v_total <$> matrix.*2)
          = record_count (take (length users) users)) as [[Hnd Hinv] Hsum].
  { refine (for_users_invariant_indexed _
      (λ i matrix,
         (NoDup matrix.*1 ∧
          ∀ a b v, ((a, b), v) ∈ matrix →
            String.ltb b a = false ∧ (1 ≤ v_total v)%nat ∧
            v_total v = (v_calls v + v_texts v)%nat) ∧
         sum_list (v_total <$> matrix.*2) = record_count (take i users))
      user_ids users _ [] matrix _ Hfor).
    - intros i uid user m m' Hid Hu [Hm Hsum] Hbody.
      apply volume_of_records_invariant in Hbody as [Hm' Hsum']; [|done].
      split; [done|]. rewrite Hsum', Hsum. symmetry.
      by apply record_count_take.
    - split; [|done]. split; [constructor|]. by intros a b v ?%elem_of_nil. }
  rewrite firstn_all in Hsum. unfold sort_by_desc. split_and!.
  - by rewrite sort_by_perm.
  - intros a b v Hin%elem_of_sort_by. by apply Hinv.
  - rewrite <- Hsum. apply sum_list_perm. by rewrite sort_by_perm.
  - intros i j x y Hij Hi Hj.
    pose proof (sort_by_sorted (λ x : string * string * Volume,
                  - Z.of_nat (v_total x.2)) matrix) as Hsorted.
    pose proof (sorted_lookup_le _ _ Hsorted i j x y Hij Hi Hj). simpl in *.
    lia.
Qed.

Lemma communication_volume_matrix_entries_witness :
  ∃ res, communication_volume_matrix sample_network ["A"; "B"] = Ok res ∧
         sum_list (v_total <$> res.*2) = record_count sample_network.
Proof.
  eexists. split; [vm_compute; reflexivity|].
  refine (proj1 (proj2 (proj2 (communication_volume_matrix_entries
                                 sample_network ["A"; "B"] _ _)))).
  vm_compute. reflexivity.
Defined.

(** ** network_timeline, continued *)

Lemma strongly_sorted_lookup {A} (R : relation A) l :
  StronglySorted R l →
  ∀ i j x y, (i < j)%nat → l !! i = Some x → l !! j = Some y → R x y.
Proof.
  induction 1 as [|x0 l Hsorted IH Hall]; intros i j x y Hij Hi Hj.
  - by rewrite lookup_nil in Hi.
  - destruct j as [|j]; [lia|]. simpl in Hj. destruct i as [|i]; simpl in Hi.
    + injection Hi as <-. rewrite Forall_forall in Hall. apply Hall.
      by eapply list_elem_of_lookup_2.
    + apply (IH i j); [lia|done..].
Qed.

Lemma sorted_le_last {A} (key : A → Z) l d x :
  StronglySorted (λ a b, key a ≤ key b) l → x ∈ l →
  key x ≤ key (List.last l d).
Proof.
  induction 1 as [|x0 l Hsorted IH Hall]; [by intros ?%elem_of_nil|].
  destruct l as [|y l].
  - intros ->%list_elem_of_singleton. simpl. lia.
  - change (List.last (x0 :: y :: l) d) with (List.last (y :: l) d).
    intros [->|Hx]%elem_of_cons; [|by apply IH].
    rewrite Forall_forall in Hall. apply Hall, last_elem_of. discriminate.
Qed.

Lemma pair_comms_length user_id rs :
  ∀ all_comms all_comms',
    pair_comms user_id rs all_comms = Ok all_comms' →
    length all_comms' = (length all_comms + length rs)%nat.
Proof.
  induction rs as [|r rs IH]; intros acc acc'; simpl.
  - intros [= <-]. lia.
  - destruct (sorted_pair user_id (correspondent_id r)) as [pair|e]; [|done].
    simpl. intros Hrest%IH. rewrite Hrest, length_app. simpl. lia.
Qed.

Lemma collect_pair_comms_length users user_ids all_comms :
  collect_pair_comms users user_ids = Ok all_comms →
  length all_comms = record_count users.
Proof.
  unfold collect_pair_comms. intros Hfor.
  rewrite <- (firstn_all users) at 1.
  refine (for_users_invariant_indexed _
    (λ i comms, length comms = record_count (take i users))
    user_ids users _ [] all_comms _ Hfor); [|done].
  intros i uid user comms comms' Hid Hu Hlen Hbody%pair_comms_length.
  rewrite Hbody, Hlen. symmetry. by apply record_count_take.
Qed.

Lemma filter_interval_length (all_comms : list PairComm) s e :
  s ≤ e →
  length (filter (λ c, pc_time c < e) all_comms)
  = (length (filter (λ c, (pc_time c < s)%Z) all_comms)
     + length (filter (λ c, (s ≤ pc_time c < e)%Z) all_comms))%nat.
Proof.
  intros Hse. induction all_comms as [|c cs IH]; [done|].
  rewrite !filter_cons.
  destruct (decide (pc_time c < e)), (decide (pc_time c < s)),
    (decide (s ≤ pc_time c < e)); simpl; lia.
Qed.

Lemma filter_all {A} (P : A → Prop) `{∀ x, Decision (P x)} (l : list A) :
  (∀ x, x ∈ l → P x) → filter P l = l.
Proof.
  induction l as [|x l IH]; intros Hl; [done|].
  rewrite filter_cons, decide_True by (apply Hl; left).
  f_equal. apply IH. intros y Hy. apply Hl. by right.
Qed.

Lemma bucket_of_shape all_comms s e b :
  b ∈ bucket_of all_comms s e →
  b_start b = s ∧ bucket_shape (e - s) b.
Proof.
  unfold bucket_of.
  destruct (filter (λ c, s ≤ pc_time c < e) all_comms) as [|c cs] eqn:Hf;
    [by intros ?%elem_of_nil|].
  generalize (c :: cs) (list_elem_of_here c cs). clear Hf. intros l Hc.
  intros ->%list_elem_of_singleton. unfold bucket_shape.
  cbn [b_start b_end unique_pair_count total_communications active_pairs].
  split; [done|]. split_and!; [lia| | |done|apply NoDup_elements].
  - assert (pc_pair c ∈ elements (list_to_set (pc_pair <$> l)
                                  : gset (string * string))) as Hin.
    { apply elem_of_elements, elem_of_list_to_set, list_elem_of_fmap. eauto. }
    destruct (elements _); [by apply elem_of_nil in Hin|simpl; lia].
  - rewrite <- (length_fmap pc_pair l).
    apply submseteq_length, NoDup_submseteq; [apply NoDup_elements|].
    intros p Hp%elem_of_elements%elem_of_list_to_set. done.
Qed.

Lemma bucket_of_total all_comms s e :
  sum_list (total_communications <$> bucket_of all_comms s e)
  = length (filter (λ c, s ≤ pc_time c < e) all_comms).
Proof.
  unfold bucket_of.
  destruct (filter (λ c, s ≤ pc_time c < e) all_comms); simpl; lia.
Qed.

(** The bucketing loop, from a start before which lie exactly the
    communications already counted. *)
Lemma bucket_loop_invariant all_comms delta last_time :
  0 < delta →
  (∀ c, c ∈ all_comms → pc_time c ≤ last_time) →
  ∀ fuel start acc buckets,
    bucket_loop fuel all_comms delta last_time start acc = Some buckets →
    sum_list (total_communications <$> acc)
    = length (filter (λ c, pc_time c < start) all_comms) →
    Forall (bucket_shape delta) acc →
    (∀ b, b ∈ acc → b_end b ≤ start) →
    StronglySorted (λ b1 b2, b_end b1 ≤ b_start b2) acc →
    sum_list (total_communications <$> buckets) = length all_comms ∧
    Forall (bucket_shape delta) buckets ∧
    StronglySorted (λ b1 b2, b_end b1 ≤ b_start b2) buckets.
Proof.
  intros Hdelta Hlast.
  induction fuel as [|fuel IH]; intros start acc buckets; simpl; [done|].
  destruct (Z.leb_spec start last_time) as [Hle|Hgt].
  - intros Hloop Hsum Hshape Hend Hsorted.
    apply IH in Hloop; [done|..].
    + rewrite fmap_app, sum_list_app, Hsum, bucket_of_total.
      symmetry. apply filter_interval_length. lia.
    + apply Forall_app. split; [done|]. apply Forall_forall.
      intros b [_ Hb]%bucket_of_shape.
      by replace (start + delta - start) with delta in Hb by lia.
    + intros b [Hb|Hb]%elem_of_app.
      * specialize (Hend b Hb). lia.
      * apply bucket_of_shape in Hb as [Hs (He & _)]. lia.
    + apply StronglySorted_app_2; [|done|].
      * intros b1 b2 Hb1 [Hs _]%bucket_of_shape. specialize (Hend b1 Hb1). lia.
      * unfold bucket_of.
        destruct (filter (λ c, start ≤ pc_time c < start + delta) all_comms);
          repeat constructor.
  - intros [= <-] Hsum Hshape Hend Hsorted. split_and!; [|done|done].
    rewrite Hsum. f_equal. apply filter_all. intros c Hc%Hlast. lia.
Qed.

(** X29: With a positive bucket size, every bucket of the timeline has that
    width, holds at least one communication and at most as many different
    pairs as communications; the buckets do not overlap and come in
    chronological order; and every record is counted in exactly one bucket:
    the totals add up to the number of records. *)
Theorem network_timeline_buckets fuel users user_ids h buckets :
  0 < h →
  network_timeline fuel users user_ids h = Some (Ok buckets) →
  sum_list (total_communications <$> buckets) = record_count users ∧
  (∀ b, b ∈ buckets → bucket_shape (h * 3600) b) ∧
  (∀ i j b1 b2, (i < j)%nat → buckets !! i = Some b1 → buckets !! j = Some b2 →
                b_end b1 ≤ b_start b2).
Proof.
  intros Hh. unfold network_timeline.
  destruct (collect_pair_comms users user_ids) as [all_comms|e] eqn:Hcollect;
    [|done].
  apply collect_pair_comms_length in Hcollect.
  pose proof (sort_by_sorted pc_time all_comms) as Hsorted.
  pose proof (sort_by_perm pc_time all_comms) as Hperm.
  destruct (sort_by pc_time all_comms) as [|first rest] eqn:Hsort.
  - intros [= <-]. apply Permutation_nil_l in Hperm. subst all_comms.
    simpl in *. split_and!; [done| |].
    + by intros b ?%elem_of_nil.
    + intros i j b1 b2 _ Hi. by rewrite lookup_nil in Hi.
  - destruct (bucket_loop fuel (first :: rest) (hours h)
                (pc_time (List.last (first :: rest) first))
                (midnight (pc_time first)) []) as [bs|] eqn:Hloop; [|done].
    simpl. intros [= <-].
    apply bucket_loop_invariant in Hloop as (Hsum & Hshape & Hord).
    + split_and!.
      * rewrite Hsum, <- Hcollect. by rewrite <- Hperm.
      * by apply Forall_forall.
      * by apply strongly_sorted_lookup.
    + unfold hours. lia.
    + intros c Hc. by apply sorted_le_last.
    + simpl. symmetry. apply length_zero_iff_nil, filter_none.
      intros c Hc. pose proof (midnight_le (pc_time first)).
      apply StronglySorted_inv in Hsorted as [_ Hall].
      rewrite Forall_forall in Hall.
      apply elem_of_cons in Hc as [->|Hc]; [lia|].
      specialize (Hall c Hc). simpl in Hall. lia.
    + constructor.
    + by intros b ?%elem_of_nil.
    + constructor.
Qed.

Lemma network_timeline_buckets_witness :
  sum_list (total_communications <$>
    [ mkBucket 0 86400 [("A", "B")] 1 1;
      mkBucket 86400 172800 [("A", "B")] 1 1 ])
  = record_count sample_network.
Proof.
  refine (proj1 (network_timeline_buckets 5 sample_network ["A"; "B"] 24 _ _ _)).
  - lia.
  - exact network_timeline_sample.
Defined.

(** ** identify_bridges, continued *)

Lemma elem_of_bridge_of_counts user_contacts entry b :
  b ∈ bridge_of user_contacts entry →
  exclusive_count b = length (exclusive_contacts b) ∧
  (1 ≤ exclusive_count b ≤ bridge_total_contacts b)%nat ∧
  NoDup (exclusive_contacts b).
Proof.
  unfold bridge_of. case_bool_decide as Hempty; [by intros ?%elem_of_nil|].
  intros ->%list_elem_of_singleton. simpl. split_and!.
  - done.
  - assert (size ((entry.2 ∖ others_contacts user_contacts entry.1)
                   ∖ {[Some entry.1]}) ≠ 0%nat); [|lia].
    intros Hsize%size_empty_iff. apply Hempty. by apply leibniz_equiv.
  - apply subseteq_size. intros z.
    rewrite !elem_of_difference. tauto.
  - apply NoDup_elements.
Qed.

Lemma bridge_ids_NoDup (user_contacts l : odict string (gset (option string))) :
  NoDup l.*1 →
  NoDup (bridge_user_id <$> (l ≫= bridge_of user_contacts)) ∧
  ∀ b, b ∈ l ≫= bridge_of user_contacts → bridge_user_id b ∈ l.*1.
Proof.
  induction l as [|entry l IH]; intros Hnd.
  - split; [constructor|]. by intros b ?%elem_of_nil.
  - simpl in Hnd. apply NoDup_cons in Hnd as [Hfresh Hnd].
    destruct (IH Hnd) as [IHnd IHin]. rewrite bind_cons. split.
    + rewrite fmap_app. apply NoDup_app. split_and!; [| |done].
      * unfold bridge_of. case_bool_decide; [constructor|].
        apply NoDup_singleton.
      * intros x (b & -> & Hb)%list_elem_of_fmap (b' & Heq & Hb')%list_elem_of_fmap.
        apply elem_of_bridge_of in Hb as [Hid _]. apply IHin in Hb'.
        rewrite <- Heq, Hid in Hb'. done.
    + intros b [Hb|Hb]%elem_of_app.
      * apply elem_of_bridge_of in Hb as [-> _]. left.
      * right. by apply IHin.
Qed.

(** X30: Every bridge is reported once, with at least one exclusive contact and
    no more exclusive contacts than in-network contacts; its exclusive
    contacts are modeled entities other than itself, and no contact is
    exclusive to two entities; the bridges come in descending order of the
    number of exclusive contacts. *)
Theorem identify_bridges_exclusive users user_ids bridges :
  identify_bridges users user_ids = Ok bridges →
  NoDup (bridge_user_id <$> bridges) ∧
  (∀ b, b ∈ bridges →
     exclusive_count b = length (exclusive_contacts b) ∧
     (1 ≤ exclusive_count b ≤ bridge_total_contacts b)%nat ∧
     NoDup (exclusive_contacts b) ∧
     (Some (bridge_user_id b) ∉ exclusive_contacts b) ∧
     ∀ z, z ∈ exclusive_contacts b → z ∈ id_set user_ids) ∧
  (∀ b1 b2 z, b1 ∈ bridges → b2 ∈ bridges →
     bridge_user_id b1 ≠ bridge_user_id b2 →
     z ∈ exclusive_contacts b1 → z ∉ exclusive_contacts b2) ∧
  (∀ i j b1 b2, (i < j)%nat → bridges !! i = Some b1 → bridges !! j = Some b2 →
                (exclusive_count b2 ≤ exclusive_count b1)%nat).
Proof.
  unfold identify_bridges.
  destruct (for_users
              (λ user_id user uc,
                 Ok (dict_set user_id (contact_set user ∩ id_set user_ids) uc))
              user_ids 0%nat users []) as [uc|e] eqn:Hfor; [|done].
  simpl. intros [= <-].
  assert (NoDup uc.*1 ∧
          ∀ k cs z, (k, cs) ∈ uc → z ∈ cs → z ∈ id_set user_ids)
    as [Hnd Hsub].
  { refine (for_users_invariant _
      (λ uc, NoDup uc.*1 ∧
             ∀ k (cs : gset (option string)) z,
               (k, cs) ∈ uc → z ∈ cs → z ∈ id_set user_ids)
      user_ids users _ [] uc _ Hfor).
    - intros i uid user d d' Hid Hu [Hd Hdsub] [= <-].
      split; [by apply dict_set_keys|].
      intros k cs z [[-> ->]|Hin]%elem_of_dict_set.
      + by intros [_ ?]%elem_of_intersection.
      + by apply (Hdsub k cs z).
    - split; [constructor|]. by intros k cs z ?%elem_of_nil. }
  unfold sort_by_desc. split_and!.
  - rewrite sort_by_perm. by apply bridge_ids_NoDup.
  - intros b (entry & Hb & Hentry)%elem_of_sort_by%list_elem_of_bind.
    pose proof (elem_of_bridge_of_counts _ _ _ Hb) as (Hcount & Hbounds & Hnodup).
    apply elem_of_bridge_of in Hb as [Hid Hex].
    split_and!; [done|lia|lia|done| |].
    + intros (_ & _ & Hself)%Hex. by rewrite Hid in Hself.
    + intros z (Hz & _ & _)%Hex. destruct entry as [k cs].
      by apply (Hsub k cs z).
  - intros b1 b2 z (e1 & Hb1 & He1)%elem_of_sort_by%list_elem_of_bind
      (e2 & Hb2 & He2)%elem_of_sort_by%list_elem_of_bind Hne Hz1 Hz2.
    apply elem_of_bridge_of in Hb1 as [Hid1 Hex1].
    apply elem_of_bridge_of in Hb2 as [Hid2 Hex2].
    apply Hex1 in Hz1 as (_ & Hothers & _). apply Hex2 in Hz2 as (Hz2 & _ & _).
    apply Hothers, elem_of_others_contacts. exists e2.
    split_and!; [done| |done]. by rewrite <- Hid1, <- Hid2.
  - intros i j b1 b2 Hij Hi Hj.
    pose proof (sort_by_sorted (λ b, - Z.of_nat (exclusive_count b))
                  (uc ≫= bridge_of uc)) as Hsorted.
    pose proof (sorted_lookup_le _ _ Hsorted i j b1 b2 Hij Hi Hj). simpl in *.
    lia.
Qed.

Lemma identify_bridges_exclusive_witness :
  NoDup (bridge_user_id <$>
           [ mkBridge "B" [Some "C"] 1 1; mkBridge "C" [Some "B"] 1 1 ]).
Proof.
  refine (proj1 (identify_bridges_exclusive sample_entities ["A"; "B"; "C"]
                   _ _)).
  exact identify_bridges_sample.
Defined.

(** ** communication_chains: the link between the two hops *)

(** C9: the first and the third party of a chain need not differ, and the
    only link checked between the two hops is that the recipient of the first
    is the sender of the second.
    - When A contacts B and B contacts A back within the window, the chain
      A, B, A is reported.
    - For two outgoing events, by A to any X and then by C to any D within
      the window, a chain is reported exactly when X is C; it is then
      A, C, D, whatever A and D are.
    - In general every reported chain has the recipient of its first hop as
      the sender of its second, and every pair of outgoing records of
      modeled entities with that link, the second later than the first and
      within the window, is reported as a chain, whoever the first sender
      and the last recipient are. *)
Theorem communication_chains_back_and_forth (a b : string) (t t' w : Z) :
  0 ≤ t' - t ≤ w * 60 →
  (communication_chains [caller (call_to t b); caller (call_to t' a)] [a; b] w
   = Ok [ chain_of (mkComm a (Some b) t) (mkComm b (Some a) t') ]
   ∧ sequence (chain_of (mkComm a (Some b) t) (mkComm b (Some a) t'))
     = [Some a; Some b; Some a]) ∧
  (∀ (c : string) (x d : option string),
     communication_chains
       [caller (outgoing_to t x); caller (outgoing_to t' d)] [a; c] w
     = Ok (if bool_decide (x = Some c)
           then [ chain_of (mkComm a x t) (mkComm c d t') ]
           else [])
     ∧ sequence (chain_of (mkComm a x t) (mkComm c d t')) = [Some a; x; d]) ∧
  (∀ users user_ids chains,
     (length users ≤ length user_ids)%nat →
     communication_chains users user_ids w = Ok chains →
     (∀ ch, ch ∈ chains →
        comm_to (a_to_b ch) = Some (comm_from (b_to_c ch)) ∧
        sequence ch = [Some (comm_from (a_to_b ch)); comm_to (a_to_b ch);
                       comm_to (b_to_c ch)]) ∧
     (∀ comm_ab comm_bc,
        outgoing_record users user_ids comm_ab →
        outgoing_record users user_ids comm_bc →
        comm_to comm_ab = Some (comm_from comm_bc) →
        0 < comm_time comm_bc - comm_time comm_ab ≤ w * 60 →
        chain_of comm_ab comm_bc ∈ chains)).
Proof.
  intros Hw. split_and!.
  - unfold communication_chains. cbn.
    decide_leb. cbn. decide_leb. cbn.
    rewrite bool_decide_eq_true_2 by done. reflexivity.
  - reflexivity.
  - intros c x d. split; [|reflexivity].
    unfold communication_chains. cbn.
    decide_leb. cbn. decide_leb. cbn.
    by destruct (bool_decide (x = Some c)).
  - intros users user_ids chains Hlen
      (all_comms & -> & _ & Hin)%communication_chains_timeline.
    split.
    + intros ch (ab & bc & _ & _ & Hlink & _ & ->)%find_chains_sound;
        [done|apply sort_by_sorted].
    + intros comm_ab comm_bc Hab Hbc Hlink Hdelta.
      apply find_chains_complete; [apply sort_by_sorted| | |done|done];
        apply elem_of_sort_by; by apply Hin.
Qed.

Lemma communication_chains_back_and_forth_witness :
  communication_chains
    [caller (call_to 1000 "B"); caller (call_to 1060 "A")] ["A"; "B"] 30
  = Ok [ chain_of (mkComm "A" (Some "B") 1000) (mkComm "B" (Some "A") 1060) ]
  ∧ communication_chains
      [caller (outgoing_to 1000 (Some "Z")); caller (outgoing_to 1060 (Some "A"))]
      ["A"; "B"] 30
    = Ok [].
Proof.
  split.
  - refine (proj1 (proj1 (communication_chains_back_and_forth
                            "A" "B" 1000 1060 30 _))). lia.
  - refine (proj1 (proj1 (proj2 (communication_chains_back_and_forth
                                   "A" "B" 1000 1060 30 _))
                     "B" (Some "Z") (Some "A"))). lia.
Defined.
